(** * Robin-Hood open-addressing hash table ([Open_Table/src/open_table.c])

    A shallow embedding of the table of [open_table.c] and the proofs of
    its specification.  Machine integers ([uint32_t]) are integers of [Z]
    with their wrap-around written out, pointers are addresses of [Z] with
    [NULL = 0], the slot array is a list indexed through stdpp's total
    lookup, and the two [float] load factors are IEEE binary32 numbers
    ([SpecFloat] at precision 24). *)

From Stdlib Require Import ZArith Lia Bool List.
From Stdlib Require Import Floats.SpecFloat.
From stdpp Require Import base list.

Local Open Scope Z_scope.

(** ** Machine integers and pointers *)

Definition UINT32_MAX : Z := 4294967295.

(** Reduction of an integer to [uint32_t]. *)
Definition u32 (x : Z) : Z := x mod 2 ^ 32.

(** A [void *]; the null pointer is address 0. *)
Definition ptr : Type := Z.
Definition NULL : ptr := 0.

(** ** IEEE binary32 ([float]) *)

Definition float : Type := spec_float.

Definition f32_of_Z (n : Z) : float := binary_normalize 24 128 n 0 false.
Definition f32_mul (x y : float) : float := SFmul 24 128 x y.
Definition f32_lt (x y : float) : bool := SFltb x y.
Definition f32_le (x y : float) : bool := SFleb x y.
Definition f32_gt (x y : float) : bool := SFltb y x.
Definition f32_ge (x y : float) : bool := SFleb y x.

(** ** Result codes ([open_table.h]) *)

Inductive HTResult : Type :=
| HT_FAILURE
| HT_SUCCESS
| HT_KEY_EXISTS
| HT_NO_SPACE
| HT_KEY_NOT_FOUND
| HT_MEM_ERROR
| HT_INVALID_ARG
| HT_INVALID_STATE.

Definition HTResult_code (r : HTResult) : Z :=
  match r with
  | HT_FAILURE => 1
  | HT_SUCCESS => 0
  | HT_KEY_EXISTS => -1
  | HT_NO_SPACE => -2
  | HT_KEY_NOT_FOUND => -3
  | HT_MEM_ERROR => -4
  | HT_INVALID_ARG => -5
  | HT_INVALID_STATE => -6
  end.

Definition is_success (r : HTResult) : bool :=
  match r with HT_SUCCESS => true | _ => false end.

(** ** Data structures *)

(** [struct htentry]. *)
Record HTentry : Type := mkEntry {
  hash_key : Z;   (* uint32_t: cached hash code *)
  psl : Z;        (* uint32_t: probe sequence length *)
  key : ptr;
  value : ptr
}.

(** A slot as [calloc] leaves it. *)
Definition zero_entry : HTentry := mkEntry 0 0 NULL NULL.

#[global] Instance HTentry_inhabited : Inhabited HTentry := populate zero_entry.

(** [struct hashtab].  The two destructor callbacks act on the caller's
    memory only; the table records whether each one is configured. *)
Record HashTab : Type := mkTab {
  table : list HTentry;
  size : Z;              (* uint32_t *)
  active : Z;            (* uint32_t *)
  load_factor : float;
  min_load_factor : float;
  hash_func : ptr -> Z -> Z;
  cmp_func : ptr -> ptr -> Z;
  free_key : bool;
  free_val : bool
}.

(** [HTConfig]: a callback left [NULL] is [None] (or [false]). *)
Record HTConfig : Type := mkConfig {
  cfg_load_factor : float;
  cfg_min_load_factor : float;
  cfg_hash_func : option (ptr -> Z -> Z);
  cfg_cmp_func : option (ptr -> ptr -> Z);
  cfg_free_key : bool;
  cfg_free_val : bool
}.

(** Field updates of the table. *)
Definition set_table (ht : HashTab) (tb : list HTentry) : HashTab :=
  mkTab tb (size ht) (active ht) (load_factor ht) (min_load_factor ht)
        (hash_func ht) (cmp_func ht) (free_key ht) (free_val ht).

Definition set_active (ht : HashTab) (a : Z) : HashTab :=
  mkTab (table ht) (size ht) a (load_factor ht) (min_load_factor ht)
        (hash_func ht) (cmp_func ht) (free_key ht) (free_val ht).

(** [ht->table[i]] and [ht->table[i] = e]. *)
Definition slot (tb : list HTentry) (i : Z) : HTentry := tb !!! Z.to_nat i.

Definition set_slot (tb : list HTentry) (i : Z) (e : HTentry) : list HTentry :=
  <[Z.to_nat i := e]> tb.

Definition with_psl (e : HTentry) (p : Z) : HTentry :=
  mkEntry (hash_key e) p (key e) (value e).

Definition with_key (e : HTentry) (k : ptr) : HTentry :=
  mkEntry (hash_key e) (psl e) k (value e).

Definition with_value (e : HTentry) (v : ptr) : HTentry :=
  mkEntry (hash_key e) (psl e) (key e) v.

(** The hash callback returns a [uint32_t]. *)
Definition call_hash (ht : HashTab) (k : ptr) (len : Z) : Z :=
  u32 (hash_func ht k len).

(** ** Default strategies, over the caller's memory *)

Section Defaults.

(** The byte stored at each address. *)
Variable mem : Z -> Z.

Fixpoint fnv1a (n : nat) (p : Z) (hash : Z) : Z :=
  match n with
  | O => hash
  | S n' => fnv1a n' (p + 1) (u32 (Z.lxor hash (mem p mod 256) * 16777619))
  end.

Definition default_hash_func (k : ptr) (len : Z) : Z :=
  fnv1a (Z.to_nat len) k 2166136261.

(** A little-endian two's-complement [int] read at [p]. *)
Definition load_int (p : Z) : Z :=
  let w := mem p mod 256 + 256 * (mem (p + 1) mod 256)
           + 65536 * (mem (p + 2) mod 256) + 16777216 * (mem (p + 3) mod 256) in
  if w <? 2 ^ 31 then w else w - 2 ^ 32.

Definition default_cmp_func (a b : ptr) : Z :=
  let int_a := load_int a in
  let int_b := load_int b in
  Z.b2z (int_b <? int_a) - Z.b2z (int_a <? int_b).

End Defaults.

(** ** Validation *)

Definition validate_load_factors (lf min_lf : float) : HTResult :=
  if f32_le lf (f32_of_Z 0) || f32_gt lf (f32_of_Z 1) then HT_INVALID_ARG
  else if f32_lt min_lf (f32_of_Z 0) || f32_ge min_lf lf then HT_INVALID_ARG
  else HT_SUCCESS.

Definition validate_size (sz new_size : Z) : HTResult :=
  if (new_size =? 0) || (UINT32_MAX / 2 <? new_size) then HT_FAILURE
  else HT_SUCCESS.

(** ** Probing *)

Definition probe_func (k i m : Z) : Z :=
  Z.land (u32 (k + i)) (u32 (m - 1)).

(** ** Creation

    [malloc_ok] and [calloc_ok] say whether the two allocations succeed;
    [mem] is the memory the default strategies read. *)
Definition ht_create (mem : Z -> Z) (config : HTConfig)
    (malloc_ok calloc_ok : bool) : option HashTab :=
  if negb (is_success (validate_load_factors (cfg_load_factor config)
                                             (cfg_min_load_factor config)))
  then None
  else if negb malloc_ok then None
  else if negb calloc_ok then None
  else Some (mkTab (replicate 2 zero_entry) 2 0
               (cfg_load_factor config) (cfg_min_load_factor config)
               (default (default_hash_func mem) (cfg_hash_func config))
               (default (default_cmp_func mem) (cfg_cmp_func config))
               (cfg_free_key config) (cfg_free_val config)).

(** ** Search *)

(** The [for] loop of [ht_search] with [n] iterations left from step [i]. *)
Fixpoint search_loop (ht : HashTab) (hk : Z) (k : ptr) (n : nat) (i : Z) : ptr :=
  match n with
  | O => NULL
  | S n' =>
      let index := probe_func hk i (size ht) in
      let entry := slot (table ht) index in
      if key entry =? NULL then NULL
      else if (hash_key entry =? hk) && (cmp_func ht (key entry) k =? 0)
      then value entry
      else if psl entry <? i then NULL
      else search_loop ht hk k n' (i + 1)
  end.

Definition ht_search (ht : HashTab) (k : ptr) (key_len : Z) : ptr :=
  if k =? NULL then NULL
  else if key_len =? 0 then NULL
  else search_loop ht (call_hash ht k key_len) k (Z.to_nat (size ht)) 0.

(** ** Insertion *)

(** The [while] loop of [insert_entry]: [new_entry] is the carried entry. *)
Fixpoint insert_loop (ht : HashTab) (hk : Z) (new_entry : HTentry)
    (n : nat) (i : Z) : HTResult * HashTab :=
  match n with
  | O => (HT_FAILURE, ht)
  | S n' =>
      let index := probe_func hk i (size ht) in
      let entry := slot (table ht) index in
      if key entry =? NULL then
        (HT_SUCCESS,
         set_active (set_table ht (set_slot (table ht) index new_entry))
                    (u32 (active ht + 1)))
      else if psl entry <? psl new_entry then
        insert_loop (set_table ht (set_slot (table ht) index new_entry)) hk
                    (with_psl entry (u32 (psl entry + 1))) n' (i + 1)
      else
        insert_loop ht hk (with_psl new_entry (u32 (psl new_entry + 1))) n' (i + 1)
  end.

Definition insert_entry (ht : HashTab) (hk : Z) (k v : ptr)
    : HTResult * HashTab :=
  insert_loop ht hk (mkEntry hk 0 k v) (Z.to_nat (size ht)) 0.

(** [rehash_entries], over the old slots in index order; the result of
    each [insert_entry] is dropped, as in the source. *)
Fixpoint rehash_entries (ht : HashTab) (old_table : list HTentry) : HashTab :=
  match old_table with
  | [] => ht
  | e :: rest =>
      if key e =? NULL then rehash_entries ht rest
      else rehash_entries (snd (insert_entry ht (hash_key e) (key e) (value e))) rest
  end.

(** The table [resize] rehashes into: a zeroed slot array of the new
    capacity, no active entry, the other fields kept. *)
Definition fresh_table (ht : HashTab) (new_size : Z) : HashTab :=
  mkTab (replicate (Z.to_nat new_size) zero_entry) new_size 0
        (load_factor ht) (min_load_factor ht)
        (hash_func ht) (cmp_func ht) (free_key ht) (free_val ht).

(** [resize]; [calloc_ok] says whether the new slot array is allocated. *)
Definition resize (ht : HashTab) (new_size : Z) (calloc_ok : bool)
    : HTResult * HashTab :=
  match validate_size (size ht) new_size with
  | HT_SUCCESS =>
      if negb calloc_ok then (HT_MEM_ERROR, ht)
      else (HT_SUCCESS, rehash_entries (fresh_table ht new_size) (table ht))
  | r => (r, ht)
  end.

(** The grow test of [ht_insert]: [active + 1 > size * load_factor]. *)
Definition grow_needed (ht : HashTab) : bool :=
  f32_gt (f32_of_Z (u32 (active ht + 1)))
         (f32_mul (f32_of_Z (size ht)) (load_factor ht)).

(** The grow step of [ht_insert]: the table the placement runs on, or
    the error that aborts the insert. *)
Definition grow_check (ht : HashTab) (calloc_ok : bool) : HTResult * HashTab :=
  if grow_needed ht then
    match validate_size (size ht) (u32 (Z.shiftl (size ht) 1)) with
    | HT_SUCCESS => resize ht (u32 (Z.shiftl (size ht) 1)) calloc_ok
    | r => (r, ht)
    end
  else (HT_SUCCESS, ht).

Definition ht_insert (ht : HashTab) (k : ptr) (key_len : Z) (v : ptr)
    (calloc_ok : bool) : HTResult * HashTab :=
  if k =? NULL then (HT_INVALID_ARG, ht)
  else if key_len =? 0 then (HT_INVALID_ARG, ht)
  else if negb (ht_search ht k key_len =? NULL) then (HT_KEY_EXISTS, ht)
  else
    match grow_check ht calloc_ok with
    | (HT_SUCCESS, ht1) => insert_entry ht1 (call_hash ht1 k key_len) k v
    | (r, ht1) => (r, ht1)
    end.

(** ** Removal *)

(** [free_entry]: the configured destructors are called on the caller's
    memory and the freed fields are cleared. *)
Definition free_entry (ht : HashTab) (e : HTentry) : HTentry :=
  let e1 := if free_key ht then with_key e NULL else e in
  if free_val ht then with_value e1 NULL else e1.

(** The [while] loop of [shift_entries_backward].  The loop has no bound
    of its own in the source: [fuel] bounds its iterations here and
    [None] means the fuel ran out. *)
Fixpoint shift_loop (fuel : nat) (sz : Z) (tb : list HTentry)
    (current_index next_index hk probe_count : Z) : option (list HTentry) :=
  if negb (key (slot tb next_index) =? NULL) && (0 <? psl (slot tb next_index))
  then
    match fuel with
    | O => None
    | S fuel' =>
        let moved := slot tb next_index in
        let tb1 := set_slot tb current_index moved in
        let tb2 := set_slot tb1 current_index
                     (with_psl (slot tb1 current_index)
                               (u32 (psl (slot tb1 current_index) - 1))) in
        let pc := u32 (probe_count + 1) in
        shift_loop fuel' sz tb2 next_index (probe_func hk pc sz) hk pc
    end
  else Some (set_slot tb current_index (with_key (slot tb current_index) NULL)).

(** Sum of the probe lengths stored in the slots: each iteration of the
    shift loop lowers one of them, so one more than the sum is enough
    fuel. *)
Definition psl_sum (tb : list HTentry) : nat :=
  foldr (fun e acc => (Z.to_nat (psl e) + acc)%nat) O tb.

Definition shift_entries_backward (ht : HashTab) (current_index hk probe_count : Z)
    : option HashTab :=
  let pc := u32 (probe_count + 1) in
  option_map (set_table ht)
    (shift_loop (S (psl_sum (table ht))) (size ht) (table ht)
                current_index (probe_func hk pc (size ht)) hk pc).

(** The shrink test of [remove_table_update], on the decremented count. *)
Definition shrink_needed (ht : HashTab) : bool :=
  f32_lt (f32_of_Z (active ht))
         (f32_mul (f32_of_Z (size ht)) (min_load_factor ht))
  && (2 <? size ht).

Definition remove_table_update (ht : HashTab) (calloc_ok : bool) : HashTab :=
  let ht1 := set_active ht (u32 (active ht - 1)) in
  if shrink_needed ht1 then snd (resize ht1 (size ht1 / 2) calloc_ok) else ht1.

(** The [for] loop of [remove_entry]. *)
Fixpoint remove_loop (ht : HashTab) (hk : Z) (k : ptr) (calloc_ok : bool)
    (n : nat) (probe_count : Z) : option (HTResult * HashTab) :=
  match n with
  | O => Some (HT_KEY_NOT_FOUND, ht)
  | S n' =>
      let current_index := probe_func hk probe_count (size ht) in
      let current_entry := slot (table ht) current_index in
      if key current_entry =? NULL then Some (HT_KEY_NOT_FOUND, ht)
      else if (hash_key current_entry =? hk)
              && (cmp_func ht (key current_entry) k =? 0)
      then
        let cleared :=
          with_value (with_key (free_entry ht current_entry) NULL) NULL in
        let ht1 := set_table ht (set_slot (table ht) current_index cleared) in
        match shift_entries_backward ht1 current_index hk probe_count with
        | Some ht2 => Some (HT_SUCCESS, remove_table_update ht2 calloc_ok)
        | None => None
        end
      else if psl current_entry <? probe_count then Some (HT_KEY_NOT_FOUND, ht)
      else remove_loop ht hk k calloc_ok n' (probe_count + 1)
  end.

Definition remove_entry (ht : HashTab) (hk : Z) (k : ptr) (calloc_ok : bool)
    : option (HTResult * HashTab) :=
  remove_loop ht hk k calloc_ok (Z.to_nat (size ht)) 0.

Definition ht_remove (ht : HashTab) (k : ptr) (key_len : Z) (calloc_ok : bool)
    : option (HTResult * HashTab) :=
  if k =? NULL then Some (HT_INVALID_ARG, ht)
  else if key_len =? 0 then Some (HT_INVALID_ARG, ht)
  else remove_entry ht (call_hash ht k key_len) k calloc_ok.

Definition ht_capacity (ht : HashTab) : Z := size ht.

(** ** Destructor calls *)

(** A call of one of the two destructor callbacks of the table. *)
Inductive free_call : Type :=
| FreeKey (p : ptr)
| FreeVal (p : ptr).

(** The calls [free_entry] makes on an entry: [free_key] on its key when
    configured, then [free_val] on its value when configured. *)
Definition free_entry_calls (ht : HashTab) (e : HTentry) : list free_call :=
  (if free_key ht then [FreeKey (key e)] else [])
  ++ (if free_val ht then [FreeVal (value e)] else []).

(** The destructor calls of the [for] loop of [remove_entry]: the loop
    reaches [free_entry] on the slot it removes and nowhere else (the
    shift and the resize that follow call no destructor). *)
Fixpoint remove_loop_calls (ht : HashTab) (hk : Z) (k : ptr)
    (n : nat) (probe_count : Z) : list free_call :=
  match n with
  | O => []
  | S n' =>
      let current_index := probe_func hk probe_count (size ht) in
      let current_entry := slot (table ht) current_index in
      if key current_entry =? NULL then []
      else if (hash_key current_entry =? hk)
              && (cmp_func ht (key current_entry) k =? 0)
      then free_entry_calls ht current_entry
      else if psl current_entry <? probe_count then []
      else remove_loop_calls ht hk k n' (probe_count + 1)
  end.

(** The destructor calls of [ht_remove]. *)
Definition ht_remove_calls (ht : HashTab) (k : ptr) (key_len : Z)
    : list free_call :=
  if k =? NULL then []
  else if key_len =? 0 then []
  else remove_loop_calls ht (call_hash ht k key_len) k (Z.to_nat (size ht)) 0.

(** The [for] loop of [ht_destroy]: [free_entry] on every slot whose key
    is not [NULL], in index order. *)
Fixpoint destroy_loop (ht : HashTab) (n : nat) (i : Z) : list free_call :=
  match n with
  | O => []
  | S n' =>
      (if key (slot (table ht) i) =? NULL then []
       else free_entry_calls ht (slot (table ht) i))
      ++ destroy_loop ht n' (i + 1)
  end.

(** [ht_destroy]: the destructor calls it makes before the slot array
    and the table are freed. *)
Definition ht_destroy (ht : HashTab) : list free_call :=
  destroy_loop ht (Z.to_nat (size ht)) 0.

(** ** Printing *)

(** The [for] loop of [ht_print]: one line per slot whose key is not
    [NULL], with the index, the cached hash, the probe length and the
    formatted key and value. *)
Fixpoint print_loop {T : Type} (ht : HashTab) (format_key format_value : ptr -> T)
    (n : nat) (i : Z) : list (Z * Z * Z * T * T) :=
  match n with
  | O => []
  | S n' =>
      (if key (slot (table ht) i) =? NULL then []
       else [(i, hash_key (slot (table ht) i), psl (slot (table ht) i),
              format_key (key (slot (table ht) i)),
              format_value (value (slot (table ht) i)))])
      ++ print_loop ht format_key format_value n' (i + 1)
  end.

(** [ht_print]: nothing when a formatter is [NULL]; else the header
    (capacity, count, load factor) and the lines. *)
Definition ht_print {T : Type} (ht : HashTab)
    (format_key format_value : option (ptr -> T))
    : option (Z * Z * float * list (Z * Z * Z * T * T)) :=
  match format_key, format_value with
  | Some fk, Some fv =>
      Some (size ht, active ht, load_factor ht,
            print_loop ht fk fv (Z.to_nat (size ht)) 0)
  | _, _ => None
  end.

(** ** Sequences of operations *)

Inductive op : Type :=
| OpInsert (k : ptr) (key_len : Z) (v : ptr) (calloc_ok : bool)
| OpRemove (k : ptr) (key_len : Z) (calloc_ok : bool).

Definition step (ht : HashTab) (o : op) : option HashTab :=
  match o with
  | OpInsert k len v a => Some (snd (ht_insert ht k len v a))
  | OpRemove k len a => option_map snd (ht_remove ht k len a)
  end.

Fixpoint run (ht : HashTab) (ops : list op) : option HashTab :=
  match ops with
  | [] => Some ht
  | o :: rest =>
      match step ht o with
      | Some ht' => run ht' rest
      | None => None
      end
  end.

(** The tables a caller can hold: a created table after some operations. *)
Definition reachable (ht : HashTab) : Prop :=
  exists mem config ht0 ops,
    ht_create mem config true true = Some ht0 /\ run ht0 ops = Some ht.

(** * Predicates of the specification *)

(** The capacities the table takes: powers of two from 2 to 2^30. *)
Definition pow2_size (m : Z) : Prop := exists e, 1 <= e <= 30 /\ m = 2 ^ e.

(** The slot after [j], cyclically. *)
Definition next_idx (m j : Z) : Z := (j + 1) mod m.

(** What a slot binds, when occupied: cached hash, key and value. *)
Definition binding : Type := Z * ptr * ptr.

Definition occupied (e : HTentry) : Prop := key e <> NULL.

Definition binding_of (e : HTentry) : option binding :=
  if key e =? NULL then None else Some (hash_key e, key e, value e).

(** The bindings of the occupied slots, in index order. *)
Definition contents (tb : list HTentry) : list binding := omap binding_of tb.

(** A carried or stored probe length [p] may follow slot [a]: a displaced
    entry sits right after an occupied slot that is at most one step
    poorer. *)
Definition rh_psl (a : HTentry) (p : Z) : Prop :=
  0 < p -> occupied a /\ p <= psl a + 1.

Definition rh_pair (a b : HTentry) : Prop := occupied b -> rh_psl a (psl b).

Record wf_slots (m : Z) (tb : list HTentry) : Prop := mk_wf_slots {
  wf_len : Z.of_nat (length tb) = m;
  wf_home : forall j, 0 <= j < m -> occupied (slot tb j) ->
            0 <= psl (slot tb j) < m /\
            (hash_key (slot tb j) + psl (slot tb j)) mod m = j;
  wf_rh : forall j, 0 <= j < m -> rh_pair (slot tb j) (slot tb (next_idx m j))
}.

(** The fields no operation but creation and resizing writes. *)
Definition same_config (ht ht' : HashTab) : Prop :=
  load_factor ht' = load_factor ht /\
  min_load_factor ht' = min_load_factor ht /\
  hash_func ht' = hash_func ht /\
  cmp_func ht' = cmp_func ht /\
  free_key ht' = free_key ht /\
  free_val ht' = free_val ht.

Record Inv (ht : HashTab) : Prop := mk_Inv {
  inv_pow2 : pow2_size (size ht);
  inv_wf : wf_slots (size ht) (table ht);
  inv_active : active ht = Z.of_nat (length (contents (table ht)))
}.

(** Slot [e] holds the key [k] of hash [hk]: the test of the search and
    removal loops. *)
Definition matches (ht : HashTab) (hk : Z) (k : ptr) (e : HTentry) : Prop :=
  occupied e /\ hash_key e = hk /\ cmp_func ht (key e) k = 0.

(** The array during the shift: slot [c] is the gap (its content is
    stale), the entry that last sat there had probe length [g], and the
    Robin-Hood order holds everywhere but across the gap. *)
Record wf_gap (m : Z) (tb : list HTentry) (c g : Z) : Prop := mk_wf_gap {
  gap_len : Z.of_nat (length tb) = m;
  gap_home : forall j, 0 <= j < m -> j <> c -> occupied (slot tb j) ->
             0 <= psl (slot tb j) < m /\
             (hash_key (slot tb j) + psl (slot tb j)) mod m = j;
  gap_rh : forall j, 0 <= j < m -> j <> c -> next_idx m j <> c ->
           rh_pair (slot tb j) (slot tb (next_idx m j));
  gap_prev : forall j, 0 <= j < m -> next_idx m j = c -> rh_psl (slot tb j) g;
  gap_next : occupied (slot tb (next_idx m c)) ->
             psl (slot tb (next_idx m c)) <= g + 1
}.

(** The table [ht'] is [ht] with the binding of slot [j] removed (and
    the capacity halved, when the shrink test asks for it). *)
Definition removed (ht : HashTab) (j : Z) (ht' : HashTab) : Prop :=
  let b := (hash_key (slot (table ht) j), key (slot (table ht) j),
            value (slot (table ht) j)) in
  Inv ht' /\ same_config ht ht' /\
  b :: contents (table ht') ⊆+ contents (table ht) /\
  (size ht' = size ht \/
   (size ht' = size ht / 2 /\
    shrink_needed (set_active ht (u32 (active ht - 1))) = true)) /\
  (size ht' = size ht \/
   Z.of_nat (length (contents (table ht))) - 1 <= size ht / 2 ->
   b :: contents (table ht') ≡ₚ contents (table ht)).

(** The key an operation is about. *)
Definition op_key (o : op) : ptr :=
  match o with OpInsert k _ _ _ => k | OpRemove k _ _ => k end.

Definition op_value_nonnull (o : op) : Prop :=
  match o with OpInsert _ _ v _ => v <> NULL | OpRemove _ _ _ => True end.

Definition value_nonnull (b : binding) : Prop := snd b <> NULL.

(** Two bindings are of the same key. *)
Definition same_key (cmp : ptr -> ptr -> Z) (b1 b2 : binding) : Prop :=
  fst (fst b1) = fst (fst b2) /\ cmp (snd (fst b1)) (snd (fst b2)) = 0.

(** No two of the bindings are of the same key. *)
Fixpoint uniq (cmp : ptr -> ptr -> Z) (l : list binding) : Prop :=
  match l with
  | [] => True
  | b :: l' => Forall (fun b' => ~ same_key cmp b b') l' /\ uniq cmp l'
  end.

(** The key [k] of length [len] is present: some slot holds it. *)
Definition present (ht : HashTab) (k : ptr) (len : Z) : Prop :=
  exists j, 0 <= j < size ht /\
            matches ht (call_hash ht k len) k (slot (table ht) j).

(** The test of the search and removal loops on a stored binding: it
    holds the key [k]. *)
Definition holds_key (ht : HashTab) (k : ptr) (len : Z) (b : binding) : bool :=
  (fst (fst b) =? call_hash ht k len) && (cmp_func ht (snd (fst b)) k =? 0).

(** The number of occupied slots that hold the key [k]. *)
Definition stored_count (ht : HashTab) (k : ptr) (len : Z) : nat :=
  length (List.filter (holds_key ht k len) (contents (table ht))).

(** The destructor calls of a run of operations. *)
Fixpoint run_calls (ht : HashTab) (ops : list op) : list free_call :=
  match ops with
  | [] => []
  | o :: rest =>
      match o with
      | OpInsert _ _ _ _ => []
      | OpRemove k len _ => ht_remove_calls ht k len
      end
      ++ match step ht o with
         | Some ht' => run_calls ht' rest
         | None => []
         end
  end.

(** The pointers the calls hand to [free_key] and to [free_val]. *)
Definition freed_keys (calls : list free_call) : list ptr :=
  omap (fun c => match c with FreeKey p => Some p | FreeVal _ => None end) calls.

Definition freed_values (calls : list free_call) : list ptr :=
  omap (fun c => match c with FreeVal p => Some p | FreeKey _ => None end) calls.

(** The key and value pointers the operations hand to [ht_insert]. *)
Definition inserted_keys (ops : list op) : list ptr :=
  omap (fun o => match o with
                 | OpInsert k _ _ _ => Some k
                 | OpRemove _ _ _ => None
                 end) ops.

Definition inserted_values (ops : list op) : list ptr :=
  omap (fun o => match o with
                 | OpInsert _ _ v _ => Some v
                 | OpRemove _ _ _ => None
                 end) ops.

(** The destructor calls on a stored binding, with [fk] and [fv] telling
    which destructors are configured. *)
Definition binding_calls (fk fv : bool) (b : binding) : list free_call :=
  (if fk then [FreeKey (snd (fst b))] else [])
  ++ (if fv then [FreeVal (snd b)] else []).

(** The bindings the operations hand to [ht_insert], with the hash the
    table computes for each key. *)
Definition inserted_bindings (ht : HashTab) (ops : list op) : list binding :=
  omap (fun o => match o with
                 | OpInsert k len v _ => Some (call_hash ht k len, k, v)
                 | OpRemove _ _ _ => None
                 end) ops.

(** The tables a caller who stores non-null values only can hold. *)
Definition reachable_nonnull (ht : HashTab) : Prop :=
  exists mem config ht0 ops,
    ht_create mem config true true = Some ht0 /\
    Forall op_value_nonnull ops /\ run ht0 ops = Some ht.

(** A comparison whose equality is symmetric and transitive. *)
Definition consistent_cmp (cmp : ptr -> ptr -> Z) : Prop :=
  (forall x y, cmp x y = 0 -> cmp y x = 0) /\
  (forall x y z, cmp x y = 0 -> cmp y z = 0 -> cmp x z = 0).

(** ** Example tables *)

Module Demo.

(** The callbacks of a caller whose keys are small integers passed as
    pointers (keys 1, 2, 3, ...): the hash of a key is the key itself and
    two keys compare equal when they are the same. *)
Definition id_hash (k : ptr) (len : Z) : Z := k.
Definition eq_cmp (a b : ptr) : Z := if a =? b then 0 else 1.
Definition no_mem (a : Z) : Z := 0.

Definition f32 (m : positive) (e : Z) : float := S754_finite false m e.

(** 0.75, 0.25, 1.0 and 0.875 as binary32 numbers. *)
Definition f_075 : float := f32 12582912 (-24).
Definition f_025 : float := f32 8388608 (-25).
Definition f_1 : float := f32 8388608 (-23).
Definition f_0875 : float := f32 14680064 (-24).

Definition config (lf min_lf : float) : HTConfig :=
  mkConfig lf min_lf (Some id_hash) (Some eq_cmp) false false.

Definition create (lf min_lf : float) : option HashTab :=
  ht_create no_mem (config lf min_lf) true true.

Definition run_from (lf min_lf : float) (ops : list op) : option HashTab :=
  match create lf min_lf with
  | Some ht => run ht ops
  | None => None
  end.

(** The table a run ends with (an empty record when there is none). *)
Definition no_table : HashTab :=
  mkTab [] 0 0 (S754_zero false) (S754_zero false) id_hash eq_cmp false false.

Definition get (o : option HashTab) : HashTab := default no_table o.

Definition table_after (lf min_lf : float) (ops : list op) : HashTab :=
  get (run_from lf min_lf ops).

(** What a caller sees of a table: capacity, count and the occupied
    slots as (index, hash, psl, key, value). *)
Definition dump (ht : HashTab) : Z * Z * list (Z * Z * Z * Z * Z) :=
  (size ht, active ht,
   omap (fun p : nat * HTentry =>
           if key (snd p) =? NULL then None
           else Some (Z.of_nat (fst p), hash_key (snd p), psl (snd p),
                      key (snd p), value (snd p)))
        (imap (fun i e => (i, e)) (table ht))).

(** Keys 1 and 2 inserted, key 1 removed, on the default load factors. *)
Definition ops_a : list op :=
  [OpInsert 1 4 100 true; OpInsert 2 4 200 true; OpRemove 1 4 true].

(** Keys 1 and 2 stored, each in its home slot of a table of capacity 4. *)
Definition ops_b : list op := [OpInsert 1 4 100 true; OpInsert 2 4 200 true].

(** Keys 1 to 4 inserted: with load factors 1.0 and 0.875 they fill a
    table of capacity 4. *)
Definition ops_c : list op :=
  [OpInsert 1 4 100 true; OpInsert 2 4 200 true; OpInsert 3 4 300 true;
   OpInsert 4 4 400 true].

(** Key 5 stored with a [NULL] value and key 1 with a value. *)
Definition ops_d : list op := [OpInsert 5 4 NULL true; OpInsert 1 4 100 true].

(** The same caller with both destructors configured, on the default
    load factors. *)
Definition config_free : HTConfig :=
  mkConfig f_075 f_025 (Some id_hash) (Some eq_cmp) true true.

Definition table_free (ops : list op) : HashTab :=
  get (match ht_create no_mem config_free true true with
       | Some ht => run ht ops
       | None => None
       end).

(** The table a removal leaves (an empty record when it does not
    return). *)
Definition after_remove (o : option (HTResult * HashTab)) : HashTab :=
  match o with
  | Some (_, ht) => ht
  | None => no_table
  end.

(** A memory whose byte at address [a] is [a mod 8]: the four bytes at
    addresses 0 and 8 are the same. *)
Definition mem8 (a : Z) : Z := a mod 8.

End Demo.

(** * Proofs *)

(** ** Arithmetic of the probe sequence *)

Lemma pow2_size_bounds m : pow2_size m -> 2 <= m <= 2 ^ 30.
Proof.
  intros (e & He & ->). split.
  - change 2 with (2 ^ 1) at 1. apply Z.pow_le_mono_r; lia.
  - apply Z.pow_le_mono_r; lia.
Qed.

Lemma pow2_size_double m :
  pow2_size m -> m <> 2 ^ 30 -> pow2_size (2 * m).
Proof.
  intros (e & He & ->) Hne. exists (e + 1). split.
  - assert (e <> 30) by (intros ->; apply Hne; reflexivity). lia.
  - rewrite Z.pow_add_r by lia. lia.
Qed.

Lemma pow2_size_half m :
  pow2_size m -> 2 < m -> pow2_size (m / 2).
Proof.
  intros (e & He & ->) Hlt. exists (e - 1).
  assert (e <> 1) by (intros ->; simpl in Hlt; lia).
  split; [lia|].
  replace e with (e - 1 + 1) at 1 by lia.
  rewrite Z.pow_add_r by lia. change (2 ^ 1) with 2.
  rewrite Z.div_mul by lia. reflexivity.
Qed.

Lemma u32_small x : 0 <= x < 2 ^ 32 -> u32 x = x.
Proof. intros H. unfold u32. apply Z.mod_small. exact H. Qed.

Lemma probe_func_mod k i m :
  pow2_size m -> probe_func k i m = (k + i) mod m.
Proof.
  intros Hm. pose proof (pow2_size_bounds m Hm) as Hb.
  destruct Hm as (e & He & ->).
  unfold probe_func.
  rewrite (u32_small (2 ^ e - 1)) by (change (2 ^ 32) with (2 ^ 30 * 4); lia).
  replace (2 ^ e - 1) with (Z.ones e) by (rewrite Z.ones_equiv; lia).
  rewrite Z.land_ones by lia.
  unfold u32. apply Z.mod_mod_divide.
  exists (2 ^ (32 - e)). rewrite <- Z.pow_add_r by lia. f_equal. lia.
Qed.

Lemma probe_func_range k i m :
  pow2_size m -> 0 <= probe_func k i m < m.
Proof.
  intros Hm. rewrite probe_func_mod by exact Hm.
  apply Z.mod_pos_bound. pose proof (pow2_size_bounds m Hm). lia.
Qed.

Lemma next_idx_range m j : 0 < m -> 0 <= next_idx m j < m.
Proof. intros. unfold next_idx. apply Z.mod_pos_bound. lia. Qed.

Lemma next_idx_cases m j :
  0 <= j < m ->
  (j + 1 < m /\ next_idx m j = j + 1) \/ (j + 1 = m /\ next_idx m j = 0).
Proof.
  intros Hj. unfold next_idx.
  destruct (Z.eq_dec (j + 1) m) as [E|E].
  - right. split; [exact E|]. rewrite E. apply Z_mod_same_full.
  - left. split; [lia|]. apply Z.mod_small. lia.
Qed.

Lemma next_idx_ne m j : 2 <= m -> 0 <= j < m -> next_idx m j <> j.
Proof. intros Hm Hj. destruct (next_idx_cases m j Hj) as [[? ->]|[? ->]]; lia. Qed.

Lemma next_idx_inj m j j' :
  0 <= j < m -> 0 <= j' < m -> next_idx m j = next_idx m j' -> j = j'.
Proof.
  intros Hj Hj'.
  destruct (next_idx_cases m j Hj) as [[? ->]|[? ->]];
    destruct (next_idx_cases m j' Hj') as [[? ->]|[? ->]]; lia.
Qed.

Lemma probe_func_next k i m :
  pow2_size m -> probe_func k (i + 1) m = next_idx m (probe_func k i m).
Proof.
  intros Hm. rewrite !probe_func_mod by exact Hm. unfold next_idx.
  rewrite Zplus_mod_idemp_l. f_equal. lia.
Qed.

Lemma probe_func_u32 k i m :
  pow2_size m -> probe_func k (u32 i) m = probe_func k i m.
Proof.
  intros Hm. unfold probe_func. f_equal. unfold u32.
  rewrite Zplus_mod_idemp_r. reflexivity.
Qed.

Lemma mod_succ_cancel a b m :
  (a + 1) mod m = (b + 1) mod m -> a mod m = b mod m.
Proof.
  intros H. apply Z.cong_iff_ex in H. destruct H as (n & Hn).
  apply Z.cong_iff_ex. exists n. lia.
Qed.

Lemma mod_succ_congr a b m : a mod m = b -> (a + 1) mod m = (b + 1) mod m.
Proof. intros <-. rewrite Zplus_mod_idemp_l. reflexivity. Qed.

(** ** The slot array *)

Lemma slot_set_slot_eq (tb : list HTentry) i e :
  0 <= i < Z.of_nat (length tb) -> slot (set_slot tb i e) i = e.
Proof.
  intros Hi. unfold slot, set_slot.
  apply list_lookup_total_insert_eq. lia.
Qed.

Lemma slot_set_slot_ne (tb : list HTentry) i j e :
  0 <= i -> 0 <= j -> i <> j -> slot (set_slot tb i e) j = slot tb j.
Proof.
  intros Hi Hj Hne. unfold slot, set_slot.
  apply list_lookup_total_insert_ne. lia.
Qed.

Lemma length_set_slot (tb : list HTentry) i e :
  length (set_slot tb i e) = length tb.
Proof. unfold set_slot. apply length_insert. Qed.

(** ** The stored bindings *)

Lemma binding_of_occupied e :
  occupied e -> binding_of e = Some (hash_key e, key e, value e).
Proof.
  unfold occupied, binding_of. intros H.
  destruct (Z.eqb_spec (key e) NULL); [contradiction|reflexivity].
Qed.

Lemma binding_of_empty e : key e = NULL -> binding_of e = None.
Proof. unfold binding_of. intros ->. reflexivity. Qed.

Lemma binding_of_with_psl e p : binding_of (with_psl e p) = binding_of e.
Proof. reflexivity. Qed.

Lemma contents_cons e (tb : list HTentry) :
  contents (e :: tb) = option_list (binding_of e) ++ contents tb.
Proof. unfold contents. simpl. destruct (binding_of e); reflexivity. Qed.

Lemma contents_set_slot (tb : list HTentry) i e :
  0 <= i < Z.of_nat (length tb) ->
  option_list (binding_of (slot tb i)) ++ contents (set_slot tb i e)
  ≡ₚ option_list (binding_of e) ++ contents tb.
Proof.
  intros Hi. unfold slot, set_slot, contents.
  assert (Hlt : (Z.to_nat i < length tb)%nat) by lia.
  destruct (lookup_lt_is_Some_2 tb _ Hlt) as [x Hx].
  rewrite (list_lookup_total_correct _ _ _ Hx).
  rewrite insert_take_drop by exact Hlt.
  rewrite <- (take_drop_middle tb _ x Hx) at 3.
  rewrite !omap_app. simpl.
  destruct (binding_of x), (binding_of e); simpl; solve_Permutation.
Qed.

Lemma contents_replicate_zero n : contents (replicate n zero_entry) = [].
Proof. induction n; [reflexivity|]. simpl. exact IHn. Qed.

Lemma contents_elem (tb : list HTentry) j :
  0 <= j < Z.of_nat (length tb) -> occupied (slot tb j) ->
  (hash_key (slot tb j), key (slot tb j), value (slot tb j)) ∈ contents tb.
Proof.
  intros Hj Hocc. unfold contents. apply list_elem_of_omap.
  exists (slot tb j). split.
  - unfold slot. apply list_elem_of_lookup. exists (Z.to_nat j).
    apply list_lookup_lookup_total_lt. lia.
  - apply binding_of_occupied. exact Hocc.
Qed.

Lemma elem_contents (tb : list HTentry) b :
  b ∈ contents tb ->
  exists j, 0 <= j < Z.of_nat (length tb) /\ occupied (slot tb j) /\
            b = (hash_key (slot tb j), key (slot tb j), value (slot tb j)).
Proof.
  unfold contents. intros H. apply list_elem_of_omap in H.
  destruct H as (e & He & Hb).
  apply list_elem_of_lookup in He. destruct He as (n & Hn).
  exists (Z.of_nat n).
  assert (Hs : slot tb (Z.of_nat n) = e).
  { unfold slot. rewrite Nat2Z.id. apply list_lookup_total_correct. exact Hn. }
  apply lookup_lt_Some in Hn. rewrite Hs.
  unfold binding_of in Hb. unfold occupied.
  destruct (Z.eqb_spec (key e) NULL); [discriminate|].
  split; [lia|]. split; [assumption|]. congruence.
Qed.

(** The occupied slots of a full array are as many as its slots. *)
Lemma contents_full (tb : list HTentry) :
  (forall j, 0 <= j < Z.of_nat (length tb) -> occupied (slot tb j)) ->
  length (contents tb) = length tb.
Proof.
  induction tb as [|e tb IH]; intros Hall; [reflexivity|].
  unfold contents. simpl.
  rewrite binding_of_occupied by (apply (Hall 0); simpl; lia).
  simpl. f_equal. apply IH. intros j Hj.
  specialize (Hall (j + 1)). unfold slot in *.
  replace (Z.to_nat (j + 1)) with (S (Z.to_nat j)) in Hall by lia.
  apply Hall. simpl. lia.
Qed.

(** ** The Robin-Hood invariant of the slot array *)

Lemma same_config_refl ht : same_config ht ht.
Proof. repeat split. Qed.

Lemma same_config_trans a b c :
  same_config a b -> same_config b c -> same_config a c.
Proof. unfold same_config. intuition congruence. Qed.

Lemma wf_slots_set m tb j e :
  2 <= m -> wf_slots m tb -> 0 <= j < m ->
  (occupied e -> 0 <= psl e < m /\ (hash_key e + psl e) mod m = j) ->
  (forall j', 0 <= j' < m -> next_idx m j' = j -> rh_pair (slot tb j') e) ->
  rh_pair e (slot tb (next_idx m j)) ->
  wf_slots m (set_slot tb j e).
Proof.
  intros Hm [Hlen Hhome Hrh] Hj He Hprev Hnext.
  assert (Hnj : next_idx m j <> j) by (apply next_idx_ne; lia).
  split.
  - rewrite length_set_slot. exact Hlen.
  - intros i Hi. destruct (Z.eq_dec i j) as [->|Hne].
    + rewrite slot_set_slot_eq by lia. exact He.
    + rewrite slot_set_slot_ne by lia. apply Hhome. exact Hi.
  - intros i Hi.
    pose proof (next_idx_range m i ltac:(lia)) as Hr.
    destruct (Z.eq_dec i j) as [->|Hne].
    + rewrite slot_set_slot_eq by lia.
      rewrite slot_set_slot_ne by lia. exact Hnext.
    + rewrite (slot_set_slot_ne tb j i) by lia.
      destruct (Z.eq_dec (next_idx m i) j) as [E|E].
      * rewrite E, slot_set_slot_eq by lia. apply Hprev; assumption.
      * rewrite slot_set_slot_ne by lia. apply Hrh. exact Hi.
Qed.

Lemma wf_slots_replicate m :
  0 <= m -> wf_slots m (replicate (Z.to_nat m) zero_entry).
Proof.
  intros Hm.
  assert (Hz : forall j, 0 <= j < m ->
                 slot (replicate (Z.to_nat m) zero_entry) j = zero_entry).
  { intros j Hj. unfold slot. apply list_lookup_total_correct.
    apply lookup_replicate_2. lia. }
  split.
  - rewrite length_replicate. lia.
  - intros j Hj Hocc. rewrite Hz in Hocc by exact Hj. exfalso. apply Hocc. reflexivity.
  - intros j Hj Hocc. rewrite Hz in Hocc by (apply next_idx_range; lia).
    exfalso. apply Hocc. reflexivity.
Qed.

(** ** [insert_entry] *)

(** What the placement loop does from step [i] with carried entry [c]:
    the array stays well formed, and the carried entry joins the stored
    bindings (on failure some binding is left in hand). *)
Lemma insert_loop_spec n : forall ht hk c i r ht',
  pow2_size (size ht) ->
  wf_slots (size ht) (table ht) ->
  Z.of_nat n = size ht - i -> 0 <= i ->
  occupied c -> 0 <= psl c <= i ->
  (hash_key c + psl c) mod size ht = (hk + i) mod size ht ->
  (forall j', 0 <= j' < size ht ->
     next_idx (size ht) j' = (hk + i) mod size ht ->
     rh_psl (slot (table ht) j') (psl c)) ->
  insert_loop ht hk c n i = (r, ht') ->
  size ht' = size ht /\ same_config ht ht' /\
  wf_slots (size ht') (table ht') /\
  ((r = HT_SUCCESS /\ active ht' = u32 (active ht + 1) /\
    contents (table ht') ≡ₚ (hash_key c, key c, value c) :: contents (table ht))
   \/
   (r = HT_FAILURE /\ active ht' = active ht /\
    exists b, b :: contents (table ht')
              ≡ₚ (hash_key c, key c, value c) :: contents (table ht))).
Proof.
  induction n as [|n IH]; intros ht hk c i r ht' Hp Hwf Hn Hi Hc Hpc Hhome Hprev Hrun.
  - simpl in Hrun. injection Hrun as <- <-.
    split; [reflexivity|]. split; [apply same_config_refl|].
    split; [exact Hwf|]. right. split; [reflexivity|]. split; [reflexivity|].
    exists (hash_key c, key c, value c). reflexivity.
  - pose proof (pow2_size_bounds _ Hp) as Hb.
    assert (Hb32 : 2 ^ 30 < 2 ^ 32) by reflexivity.
    simpl in Hrun. rewrite (probe_func_mod hk i _ Hp) in Hrun.
    set (idx := (hk + i) mod size ht) in *.
    assert (Hidx : 0 <= idx < size ht) by (apply Z.mod_pos_bound; lia).
    pose proof (wf_len _ _ Hwf) as Hlen.
    destruct (Z.eqb_spec (key (slot (table ht) idx)) NULL) as [Hemp|Hocc].
    + injection Hrun as <- <-. simpl.
      split; [reflexivity|]. split; [repeat split|]. split.
      * apply wf_slots_set; [lia|exact Hwf|exact Hidx| | |].
        -- intros _. split; [lia|exact Hhome].
        -- intros j' Hj' Hnx _. apply Hprev; assumption.
        -- intros Hon Hpos. exfalso.
           destruct (wf_rh _ _ Hwf idx Hidx Hon Hpos) as [Ho _]. apply Ho. exact Hemp.
      * left. split; [reflexivity|]. split; [reflexivity|].
        pose proof (contents_set_slot (table ht) idx c ltac:(lia)) as Hperm.
        rewrite (binding_of_empty _ Hemp), (binding_of_occupied _ Hc) in Hperm.
        exact Hperm.
    + destruct (wf_home _ _ Hwf idx Hidx Hocc) as [Hpe Hhe].
      assert (Hstep : (hk + (i + 1)) mod size ht = next_idx (size ht) idx).
      { unfold next_idx, idx. rewrite Zplus_mod_idemp_l. f_equal. lia. }
      destruct (Z.ltb_spec (psl (slot (table ht) idx)) (psl c)) as [Hlt|Hge].
      * (* the carried entry is poorer: it takes the slot *)
        set (e := slot (table ht) idx) in *.
        assert (Hwf' : wf_slots (size ht) (set_slot (table ht) idx c)).
        { apply wf_slots_set; [lia|exact Hwf|exact Hidx| | |].
          - intros _. split; [lia|exact Hhome].
          - intros j' Hj' Hnx _. apply Hprev; assumption.
          - intros Hon Hpos.
            destruct (wf_rh _ _ Hwf idx Hidx Hon Hpos) as [_ Hle].
            split; [exact Hc|]. fold e in Hle. lia. }
        apply IH in Hrun; simpl; try assumption; try lia.
        -- simpl in Hrun. destruct Hrun as (Hsz & Hcfg & Hwf2 & Hres).
           split; [exact Hsz|]. split; [exact Hcfg|]. split; [exact Hwf2|].
           pose proof (contents_set_slot (table ht) idx c ltac:(lia)) as Hperm.
           fold e in Hperm.
           rewrite (binding_of_occupied e Hocc), (binding_of_occupied _ Hc) in Hperm.
           simpl in Hperm.
           destruct Hres as [(-> & Ha & Hc2)|(-> & Ha & b & Hc2)].
           ++ left. repeat split; try assumption.
              rewrite Hc2. exact Hperm.
           ++ right. repeat split; try assumption.
              exists b. rewrite Hc2. exact Hperm.
        -- rewrite u32_small by lia. lia.
        -- rewrite u32_small by lia. rewrite Hstep. unfold next_idx.
           rewrite Z.add_assoc. apply mod_succ_congr. exact Hhe.
        -- intros j' Hj' Hnx. rewrite Hstep in Hnx.
           apply next_idx_inj in Hnx; [|lia|lia]. subst j'.
           rewrite slot_set_slot_eq by lia.
           rewrite u32_small by lia. intros _. split; [exact Hc|lia].
      * (* the resident keeps the slot *)
        apply IH in Hrun; simpl; try assumption; try lia.
        -- rewrite u32_small by lia. lia.
        -- rewrite u32_small by lia. rewrite Hstep. unfold next_idx.
           rewrite Z.add_assoc. apply mod_succ_congr. exact Hhome.
        -- intros j' Hj' Hnx. rewrite Hstep in Hnx.
           apply next_idx_inj in Hnx; [|lia|lia]. subst j'.
           rewrite u32_small by lia. intros _. split; [exact Hocc|lia].
Qed.

Lemma insert_entry_spec ht hk k v r ht' :
  pow2_size (size ht) -> wf_slots (size ht) (table ht) -> k <> NULL ->
  insert_entry ht hk k v = (r, ht') ->
  size ht' = size ht /\ same_config ht ht' /\
  wf_slots (size ht') (table ht') /\
  ((r = HT_SUCCESS /\ active ht' = u32 (active ht + 1) /\
    contents (table ht') ≡ₚ (hk, k, v) :: contents (table ht))
   \/
   (r = HT_FAILURE /\ active ht' = active ht /\
    exists b, b :: contents (table ht') ≡ₚ (hk, k, v) :: contents (table ht))).
Proof.
  intros Hp Hwf Hk Hrun. pose proof (pow2_size_bounds _ Hp) as Hb.
  unfold insert_entry in Hrun.
  apply insert_loop_spec in Hrun; simpl; try assumption; try lia.
  intros j' _ _ Hpos. lia.
Qed.

(** A failed placement has found every slot of the probe sequence
    occupied. *)
Lemma insert_loop_failure n : forall ht hk c i ht',
  pow2_size (size ht) -> Z.of_nat (length (table ht)) = size ht ->
  Z.of_nat n = size ht - i -> 0 <= i ->
  insert_loop ht hk c n i = (HT_FAILURE, ht') ->
  forall i', i <= i' < size ht ->
    occupied (slot (table ht) ((hk + i') mod size ht)).
Proof.
  induction n as [|n IH]; intros ht hk c i ht' Hp Hlen Hn Hi Hrun i' Hi'.
  - lia.
  - pose proof (pow2_size_bounds _ Hp) as Hb.
    simpl in Hrun. rewrite (probe_func_mod hk i _ Hp) in Hrun.
    set (idx := (hk + i) mod size ht) in *.
    assert (Hidx : 0 <= idx < size ht) by (apply Z.mod_pos_bound; lia).
    destruct (Z.eqb_spec (key (slot (table ht) idx)) NULL) as [Hemp|Hocc];
      [discriminate|].
    destruct (Z.eq_dec i' i) as [->|Hne]; [exact Hocc|].
    destruct (psl (slot (table ht) idx) <? psl c).
    + apply IH with (i' := i') in Hrun; simpl; try assumption; try lia.
      * simpl in Hrun.
        destruct (Z.eq_dec ((hk + i') mod size ht) idx) as [->|Hd]; [exact Hocc|].
        rewrite slot_set_slot_ne in Hrun; [exact Hrun|lia| |congruence].
        apply Z.mod_pos_bound. lia.
      * rewrite length_set_slot. exact Hlen.
    + apply IH with (i' := i') in Hrun; simpl; try assumption; lia.
Qed.

Lemma insert_loop_result n : forall ht hk c i,
  fst (insert_loop ht hk c n i) = HT_SUCCESS \/
  fst (insert_loop ht hk c n i) = HT_FAILURE.
Proof.
  induction n as [|n IH]; intros ht hk c i; simpl; [right; reflexivity|].
  destruct (key _ =? NULL); [left; reflexivity|].
  destruct (psl _ <? psl c); apply IH.
Qed.

(** The placement loop finds a free slot whenever the array has one. *)
Lemma insert_entry_success ht hk k v :
  pow2_size (size ht) -> Z.of_nat (length (table ht)) = size ht ->
  Z.of_nat (length (contents (table ht))) < size ht ->
  fst (insert_entry ht hk k v) = HT_SUCCESS.
Proof.
  intros Hp Hlen Hcount. pose proof (pow2_size_bounds _ Hp) as Hb.
  unfold insert_entry.
  destruct (insert_loop_result (Z.to_nat (size ht)) ht hk (mkEntry hk 0 k v) 0)
    as [H|H]; [exact H|exfalso].
  destruct (insert_loop ht hk (mkEntry hk 0 k v) (Z.to_nat (size ht)) 0)
    as [r ht'] eqn:Hrun.
  simpl in H. subst r.
  assert (Hfuel : Z.of_nat (Z.to_nat (size ht)) = size ht - 0) by lia.
  pose proof (insert_loop_failure _ _ _ _ _ _ Hp Hlen Hfuel (Z.le_refl 0) Hrun)
    as Hall.
  assert (Hfull : length (contents (table ht)) = length (table ht)).
  { apply contents_full. intros j Hj.
    specialize (Hall ((j - hk) mod size ht)).
    replace ((hk + (j - hk) mod size ht) mod size ht) with j in Hall.
    - apply Hall. apply Z.mod_pos_bound. lia.
    - rewrite Zplus_mod_idemp_r. replace (hk + (j - hk)) with j by lia.
      symmetry. apply Z.mod_small. lia. }
  lia.
Qed.

(** ** The invariant of the table *)

Lemma contents_length_le (tb : list HTentry) :
  (length (contents tb) <= length tb)%nat.
Proof.
  induction tb as [|e tb IH]; [reflexivity|].
  rewrite contents_cons. destruct (binding_of e); simpl; lia.
Qed.

Lemma insert_entry_Inv ht hk k v r ht' :
  Inv ht -> k <> NULL -> insert_entry ht hk k v = (r, ht') -> Inv ht'.
Proof.
  intros [Hp Hwf Hact] Hk Hrun.
  destruct (insert_entry_spec _ _ _ _ _ _ Hp Hwf Hk Hrun)
    as (Hsz & _ & Hwf' & Hres).
  pose proof (pow2_size_bounds _ Hp) as Hb.
  pose proof (contents_length_le (table ht)) as Hle.
  pose proof (wf_len _ _ Hwf) as Hlen.
  split.
  - rewrite Hsz. exact Hp.
  - exact Hwf'.
  - destruct Hres as [(_ & Ha & Hc)|(_ & Ha & b & Hc)].
    + rewrite Ha, Hc, Hact. simpl.
      rewrite u32_small by (change (2 ^ 32) with (2 ^ 30 * 4); lia). lia.
    + apply Permutation_length in Hc. simpl in Hc. lia.
Qed.

(** ** Search *)

Lemma matches_dec ht hk k e :
  matches ht hk k e \/ ~ matches ht hk k e.
Proof.
  unfold matches, occupied.
  destruct (Z.eq_dec (key e) NULL), (Z.eq_dec (hash_key e) hk),
    (Z.eq_dec (cmp_func ht (key e) k) 0); tauto.
Qed.

Lemma matches_test ht hk k e :
  occupied e ->
  (hash_key e =? hk) && (cmp_func ht (key e) k =? 0) = true <-> matches ht hk k e.
Proof.
  intros Hocc. unfold matches. rewrite andb_true_iff, !Z.eqb_eq. tauto.
Qed.

(** Every slot between the home of a stored entry and the entry is
    occupied by an entry at least as far from its own home. *)
Lemma probe_path m tb j :
  2 <= m -> wf_slots m tb -> 0 <= j < m -> occupied (slot tb j) ->
  forall d, 0 <= d <= psl (slot tb j) ->
    occupied (slot tb ((hash_key (slot tb j) + d) mod m)) /\
    d <= psl (slot tb ((hash_key (slot tb j) + d) mod m)).
Proof.
  intros Hm Hwf Hj Hocc.
  destruct (wf_home _ _ Hwf j Hj Hocc) as [Hp Hh].
  set (h := hash_key (slot tb j)) in *. set (p := psl (slot tb j)) in *.
  assert (Hgen : forall n d, Z.of_nat n = p - d -> 0 <= d ->
            occupied (slot tb ((h + d) mod m)) /\ d <= psl (slot tb ((h + d) mod m))).
  { induction n as [|n IH]; intros d Hn Hd.
    - replace d with p by lia. rewrite Hh. split; [exact Hocc|]. unfold p. lia.
    - destruct (IH (d + 1) ltac:(lia) ltac:(lia)) as [Ho Hle].
      assert (Hnx : (h + (d + 1)) mod m = next_idx m ((h + d) mod m)).
      { unfold next_idx. rewrite Zplus_mod_idemp_l. f_equal. lia. }
      rewrite Hnx in Ho, Hle.
      assert (Hr : 0 <= (h + d) mod m < m) by (apply Z.mod_pos_bound; lia).
      destruct (wf_rh _ _ Hwf _ Hr Ho ltac:(lia)) as [Ho' Hle'].
      split; [exact Ho'|lia]. }
  intros d Hd. apply (Hgen (Z.to_nat (p - d))); lia.
Qed.

(** The search loop never misses: with the key stored at step [i] or
    later, it returns the value of a slot holding the key. *)
Lemma search_loop_finds n : forall ht hk k i j,
  pow2_size (size ht) -> wf_slots (size ht) (table ht) ->
  Z.of_nat n = size ht - i -> 0 <= i ->
  0 <= j < size ht -> matches ht hk k (slot (table ht) j) ->
  i <= psl (slot (table ht) j) ->
  exists j', 0 <= j' < size ht /\ matches ht hk k (slot (table ht) j') /\
             search_loop ht hk k n i = value (slot (table ht) j').
Proof.
  induction n as [|n IH]; intros ht hk k i j Hp Hwf Hn Hi Hj Hm Hle.
  - destruct Hm as (Hocc & _). destruct (wf_home _ _ Hwf j Hj Hocc). lia.
  - pose proof (pow2_size_bounds _ Hp) as Hb.
    simpl. rewrite (probe_func_mod hk i _ Hp).
    set (idx := (hk + i) mod size ht).
    assert (Hidx : 0 <= idx < size ht) by (apply Z.mod_pos_bound; lia).
    pose proof Hm as (Hocc & Hh & Hcmp).
    assert (H2 : 2 <= size ht) by lia.
    assert (Hd : 0 <= i <= psl (slot (table ht) j)) by lia.
    destruct (probe_path _ _ j H2 Hwf Hj Hocc i Hd) as [Ho Hpi].
    rewrite Hh in Ho, Hpi. fold idx in Ho, Hpi.
    destruct (Z.eqb_spec (key (slot (table ht) idx)) NULL) as [E|_];
      [contradiction|].
    destruct ((hash_key (slot (table ht) idx) =? hk)
              && (cmp_func ht (key (slot (table ht) idx)) k =? 0)) eqn:Ht.
    + exists idx. split; [exact Hidx|]. split; [|reflexivity].
      apply matches_test; assumption.
    + destruct (Z.ltb_spec (psl (slot (table ht) idx)) i) as [Hlt|_]; [lia|].
      apply (IH ht hk k (i + 1) j); try assumption; try lia.
      destruct (Z.eq_dec i (psl (slot (table ht) j))) as [E|E]; [|lia].
      exfalso. destruct (wf_home _ _ Hwf j Hj Hocc) as [_ Hhome].
      rewrite Hh, <- E in Hhome. fold idx in Hhome. subst idx.
      rewrite Hhome in Ht.
      apply (matches_test ht hk k _ Hocc) in Hm. congruence.
Qed.

(** What the search loop returns is [NULL] or the value of a slot that
    holds the key. *)
Lemma search_loop_sound n : forall ht hk k i,
  pow2_size (size ht) ->
  search_loop ht hk k n i = NULL \/
  exists j, 0 <= j < size ht /\ matches ht hk k (slot (table ht) j) /\
            search_loop ht hk k n i = value (slot (table ht) j).
Proof.
  induction n as [|n IH]; intros ht hk k i Hp; simpl; [left; reflexivity|].
  destruct (Z.eqb_spec (key (slot (table ht) (probe_func hk i (size ht)))) NULL)
    as [|Hocc]; [left; reflexivity|].
  destruct ((hash_key _ =? hk) && _) eqn:Ht.
  - right. exists (probe_func hk i (size ht)).
    split; [apply probe_func_range; exact Hp|]. split; [|reflexivity].
    apply matches_test; assumption.
  - destruct (psl _ <? i); [left; reflexivity|]. apply IH. exact Hp.
Qed.

Lemma ht_search_finds ht k len j :
  Inv ht -> k <> NULL -> len <> 0 -> 0 <= j < size ht ->
  matches ht (call_hash ht k len) k (slot (table ht) j) ->
  exists j', 0 <= j' < size ht /\
             matches ht (call_hash ht k len) k (slot (table ht) j') /\
             ht_search ht k len = value (slot (table ht) j').
Proof.
  intros [Hp Hwf _] Hk Hlen Hj Hm. pose proof (pow2_size_bounds _ Hp) as Hb.
  unfold ht_search.
  destruct (Z.eqb_spec k NULL); [contradiction|].
  destruct (Z.eqb_spec len 0); [contradiction|].
  apply (search_loop_finds _ ht _ k 0 j); try assumption; try lia.
  destruct Hm as (Hocc & _). destruct (wf_home _ _ Hwf j Hj Hocc). lia.
Qed.

Lemma ht_search_sound ht k len :
  pow2_size (size ht) ->
  ht_search ht k len = NULL \/
  exists j, 0 <= j < size ht /\
            matches ht (call_hash ht k len) k (slot (table ht) j) /\
            ht_search ht k len = value (slot (table ht) j).
Proof.
  intros Hp. unfold ht_search.
  destruct (k =? NULL); [left; reflexivity|].
  destruct (len =? 0); [left; reflexivity|].
  apply search_loop_sound. exact Hp.
Qed.

(** ** Backward shift *)

Lemma set_slot_twice (tb : list HTentry) i a b :
  set_slot (set_slot tb i a) i b = set_slot tb i b.
Proof. unfold set_slot. apply list_insert_insert_eq. Qed.

Lemma wf_gap_open m tb c e :
  2 <= m -> wf_slots m tb -> 0 <= c < m -> occupied (slot tb c) ->
  wf_gap m (set_slot tb c e) c (psl (slot tb c)).
Proof.
  intros Hm Hwf Hc Hocc.
  pose proof (next_idx_ne m c Hm Hc) as Hnc.
  pose proof (next_idx_range m c ltac:(lia)) as Hnr.
  destruct (wf_home _ _ Hwf c Hc Hocc) as [Hpc _].
  split.
  - rewrite length_set_slot. apply (wf_len _ _ Hwf).
  - intros j Hj Hne. rewrite slot_set_slot_ne by lia. apply (wf_home _ _ Hwf j Hj).
  - intros j Hj Hne Hne'.
    pose proof (next_idx_range m j ltac:(lia)).
    rewrite !slot_set_slot_ne by lia. apply (wf_rh _ _ Hwf j Hj).
  - intros j Hj Hnx.
    assert (j <> c) by (intros ->; contradiction).
    rewrite slot_set_slot_ne by lia.
    pose proof (wf_rh _ _ Hwf j Hj) as Hrh. rewrite Hnx in Hrh. apply Hrh. exact Hocc.
  - rewrite slot_set_slot_ne by lia. intros Hon.
    destruct (Z_lt_le_dec 0 (psl (slot tb (next_idx m c)))) as [Hpos|Hle]; [|lia].
    destruct (wf_rh _ _ Hwf c Hc Hon Hpos) as [_ H]. exact H.
Qed.

Lemma wf_gap_close m tb c g :
  2 <= m -> wf_gap m tb c g -> 0 <= c < m ->
  ~ (occupied (slot tb (next_idx m c)) /\ 0 < psl (slot tb (next_idx m c))) ->
  wf_slots m (set_slot tb c (with_key (slot tb c) NULL)).
Proof.
  intros Hm [Hlen Hhome Hrh Hprev Hnext] Hc Hstop.
  pose proof (next_idx_ne m c Hm Hc) as Hnc.
  pose proof (next_idx_range m c ltac:(lia)) as Hnr.
  split.
  - rewrite length_set_slot. exact Hlen.
  - intros j Hj. destruct (Z.eq_dec j c) as [->|Hne].
    + rewrite slot_set_slot_eq by lia. intros Ho. exfalso. apply Ho. reflexivity.
    + rewrite slot_set_slot_ne by lia. apply Hhome; assumption.
  - intros j Hj. pose proof (next_idx_range m j ltac:(lia)).
    destruct (Z.eq_dec j c) as [->|Hne].
    + rewrite slot_set_slot_eq by lia. rewrite slot_set_slot_ne by lia.
      intros Hon Hpos. exfalso. apply Hstop. split; assumption.
    + rewrite (slot_set_slot_ne tb c j) by lia.
      destruct (Z.eq_dec (next_idx m j) c) as [E|E].
      * rewrite E, slot_set_slot_eq by lia. intros Ho. exfalso. apply Ho. reflexivity.
      * rewrite slot_set_slot_ne by lia. apply Hrh; assumption.
Qed.

Lemma wf_gap_step m tb c g :
  2 <= m -> wf_gap m tb c g -> 0 <= c < m ->
  occupied (slot tb (next_idx m c)) -> 0 < psl (slot tb (next_idx m c)) ->
  wf_gap m
    (set_slot tb c (with_psl (slot tb (next_idx m c))
                             (psl (slot tb (next_idx m c)) - 1)))
    (next_idx m c) (psl (slot tb (next_idx m c))).
Proof.
  intros Hm [Hlen Hhome Hrh Hprev Hnext] Hc Hon Hpos.
  pose proof (next_idx_ne m c Hm Hc) as Hnc.
  pose proof (next_idx_range m c ltac:(lia)) as Hnr.
  set (nx := next_idx m c) in *. set (p := psl (slot tb nx)) in *.
  destruct (Hhome nx Hnr Hnc Hon) as [Hpr Hph]. fold p in Hpr, Hph.
  specialize (Hnext Hon). fold p in Hnext.
  split.
  - rewrite length_set_slot. exact Hlen.
  - intros j Hj Hne. destruct (Z.eq_dec j c) as [->|Hjc].
    + rewrite slot_set_slot_eq by lia. simpl. intros _. split; [lia|].
      transitivity (c mod m); [|apply Z.mod_small; lia].
      apply mod_succ_cancel.
      replace (hash_key (slot tb nx) + (p - 1) + 1)
        with (hash_key (slot tb nx) + p) by lia.
      rewrite Hph. reflexivity.
    + rewrite slot_set_slot_ne by lia. apply Hhome; assumption.
  - intros j Hj Hne Hne'. pose proof (next_idx_range m j ltac:(lia)).
    destruct (Z.eq_dec j c) as [->|Hjc]; [contradiction|].
    rewrite (slot_set_slot_ne tb c j) by lia.
    destruct (Z.eq_dec (next_idx m j) c) as [E|E].
    + rewrite E, slot_set_slot_eq by lia. intros _. simpl. intros Hp1.
      destruct (Hprev j Hj E ltac:(lia)) as [Ho Hg]. split; [exact Ho|lia].
    + rewrite slot_set_slot_ne by lia. apply Hrh; assumption.
  - intros j Hj Hnx. apply next_idx_inj in Hnx; [|lia|lia]. subst j.
    rewrite slot_set_slot_eq by lia. intros _. split; [exact Hon|simpl; lia].
  - pose proof (next_idx_range m nx ltac:(lia)) as Hnr2.
    destruct (Z.eq_dec (next_idx m nx) c) as [E|E].
    + rewrite E, slot_set_slot_eq by lia. simpl. lia.
    + rewrite slot_set_slot_ne by lia. intros Hon2.
      destruct (Z_lt_le_dec 0 (psl (slot tb (next_idx m nx)))) as [Hpos2|Hle]; [|lia].
      assert (Hnn : nx <> c) by exact Hnc.
      destruct (Hrh nx Hnr Hnn E Hon2 Hpos2) as [_ H]. fold p in H. exact H.
Qed.

Lemma psl_sum_app (l1 l2 : list HTentry) :
  psl_sum (l1 ++ l2) = (psl_sum l1 + psl_sum l2)%nat.
Proof.
  unfold psl_sum. induction l1 as [|e l1 IH]; simpl; [reflexivity|].
  rewrite IH. lia.
Qed.

Lemma psl_sum_set_slot (tb : list HTentry) i e :
  0 <= i < Z.of_nat (length tb) ->
  (psl_sum (set_slot tb i e) + Z.to_nat (psl (slot tb i))
   = psl_sum tb + Z.to_nat (psl e))%nat.
Proof.
  intros Hi. unfold slot, set_slot.
  assert (Hlt : (Z.to_nat i < length tb)%nat) by lia.
  destruct (lookup_lt_is_Some_2 tb _ Hlt) as [x Hx].
  rewrite (list_lookup_total_correct _ _ _ Hx).
  rewrite insert_take_drop by exact Hlt.
  rewrite <- (take_drop_middle tb _ x Hx) at 3.
  rewrite !psl_sum_app.
  change (psl_sum (e :: drop (S (Z.to_nat i)) tb))
    with (Z.to_nat (psl e) + psl_sum (drop (S (Z.to_nat i)) tb))%nat.
  change (psl_sum (x :: drop (S (Z.to_nat i)) tb))
    with (Z.to_nat (psl x) + psl_sum (drop (S (Z.to_nat i)) tb))%nat.
  lia.
Qed.

Lemma psl_sum_two (tb : list HTentry) i j :
  0 <= i < Z.of_nat (length tb) -> 0 <= j < Z.of_nat (length tb) -> i <> j ->
  (Z.to_nat (psl (slot tb i)) + Z.to_nat (psl (slot tb j)) <= psl_sum tb)%nat.
Proof.
  intros Hi Hj Hne.
  pose proof (psl_sum_set_slot tb i zero_entry Hi) as H1.
  pose proof (psl_sum_set_slot (set_slot tb i zero_entry) j zero_entry) as H2.
  rewrite length_set_slot in H2. specialize (H2 Hj).
  rewrite slot_set_slot_ne in H2 by lia. simpl in H1, H2. lia.
Qed.

(** Moving the entry after the gap into the gap keeps the bindings. *)
Lemma contents_gap_step (tb : list HTentry) c nx q ec en :
  0 <= c < Z.of_nat (length tb) -> 0 <= nx < Z.of_nat (length tb) -> c <> nx ->
  occupied (slot tb nx) -> key ec = NULL -> key en = NULL ->
  contents (set_slot (set_slot tb c (with_psl (slot tb nx) q)) nx en)
  ≡ₚ contents (set_slot tb c ec).
Proof.
  intros Hc Hnx Hne Hon Hec Hen.
  pose proof (contents_set_slot tb c ec Hc) as H1.
  pose proof (contents_set_slot tb c (with_psl (slot tb nx) q) Hc) as H2.
  pose proof (contents_set_slot (set_slot tb c (with_psl (slot tb nx) q)) nx en)
    as H3.
  rewrite length_set_slot in H3. specialize (H3 Hnx).
  rewrite slot_set_slot_ne in H3 by lia.
  rewrite (binding_of_empty _ Hec) in H1.
  rewrite (binding_of_empty _ Hen) in H3.
  rewrite binding_of_with_psl in H2.
  rewrite (binding_of_occupied _ Hon) in H2, H3. simpl in H1, H2, H3.
  rewrite <- H3 in H2. rewrite <- H1 in H2.
  apply (Permutation_cons_inv (a := (hash_key (slot tb nx), key (slot tb nx),
                                     value (slot tb nx)))).
  apply (Permutation_app_inv_l (option_list (binding_of (slot tb c)))).
  rewrite H2. solve_Permutation.
Qed.

(** The shift loop ends within its fuel, closes the gap and keeps the
    bindings and the Robin-Hood order. *)
Lemma shift_loop_spec hk m fuel : forall tb c g pc,
  pow2_size m -> wf_gap m tb c g -> 0 <= c < m ->
  probe_func hk pc m = next_idx m c ->
  (psl_sum tb < fuel + Z.to_nat (psl (slot tb c)))%nat ->
  exists tb',
    shift_loop fuel m tb c (next_idx m c) hk pc = Some tb' /\
    wf_slots m tb' /\
    contents tb' ≡ₚ contents (set_slot tb c (with_key (slot tb c) NULL)).
Proof.
  induction fuel as [|fuel IH]; intros tb c g pc Hp Hgap Hc Hpr Hfuel;
    pose proof (pow2_size_bounds _ Hp) as Hb;
    assert (H2 : 2 <= m) by lia;
    pose proof (next_idx_ne m c H2 Hc) as Hnc;
    pose proof (next_idx_range m c ltac:(lia)) as Hnr;
    pose proof (gap_len _ _ _ _ Hgap) as Hlen;
    set (nx := next_idx m c) in *; simpl.
  - destruct (Z.eqb_spec (key (slot tb nx)) NULL) as [Hemp|Hon]; simpl.
    + eexists. split; [reflexivity|]. split; [|reflexivity].
      apply (wf_gap_close m tb c g); try assumption. fold nx. intros [Ho _].
      apply Ho. exact Hemp.
    + destruct (Z.ltb_spec 0 (psl (slot tb nx))) as [Hpos|Hle].
      * exfalso. pose proof (psl_sum_two tb c nx ltac:(lia) ltac:(lia) ltac:(lia)). lia.
      * eexists. split; [reflexivity|]. split; [|reflexivity].
        apply (wf_gap_close m tb c g); try assumption. fold nx. lia.
  - destruct (Z.eqb_spec (key (slot tb nx)) NULL) as [Hemp|Hon]; simpl.
    + eexists. split; [reflexivity|]. split; [|reflexivity].
      apply (wf_gap_close m tb c g); try assumption. fold nx. intros [Ho _].
      apply Ho. exact Hemp.
    + destruct (Z.ltb_spec 0 (psl (slot tb nx))) as [Hpos|Hle].
      * destruct (gap_home _ _ _ _ Hgap nx Hnr Hnc Hon) as [Hpm _].
        rewrite slot_set_slot_eq by lia. rewrite set_slot_twice.
        rewrite (u32_small (psl (slot tb nx) - 1))
          by (change (2 ^ 32) with (2 ^ 30 * 4); lia).
        assert (Hpr' : probe_func hk (u32 (pc + 1)) m = next_idx m nx).
        { rewrite probe_func_u32, probe_func_next by exact Hp. rewrite Hpr.
          reflexivity. }
        rewrite Hpr'.
        set (tb2 := set_slot tb c (with_psl (slot tb nx) (psl (slot tb nx) - 1))).
        assert (Hs2 : slot tb2 nx = slot tb nx)
          by (unfold tb2; apply slot_set_slot_ne; lia).
        destruct (IH tb2 nx (psl (slot tb nx)) (u32 (pc + 1))) as (tb' & Hrun & Hwf & Hperm).
        -- exact Hp.
        -- apply (wf_gap_step m tb c g); assumption.
        -- exact Hnr.
        -- exact Hpr'.
        -- rewrite Hs2.
           pose proof (psl_sum_set_slot tb c
                         (with_psl (slot tb nx) (psl (slot tb nx) - 1))
                         ltac:(lia)) as Hsum.
           fold tb2 in Hsum. simpl in Hsum. lia.
        -- exists tb'. split; [exact Hrun|]. split; [exact Hwf|].
           rewrite Hperm. unfold tb2.
           apply contents_gap_step; try lia; try assumption; reflexivity.
      * eexists. split; [reflexivity|]. split; [|reflexivity].
        apply (wf_gap_close m tb c g); try assumption. fold nx. lia.
Qed.

(** ** Rehash and resize *)

Lemma rehash_entries_spec old : forall ht,
  Inv ht ->
  Inv (rehash_entries ht old) /\
  size (rehash_entries ht old) = size ht /\
  same_config ht (rehash_entries ht old) /\
  contents (table (rehash_entries ht old)) ⊆+ contents old ++ contents (table ht) /\
  (Z.of_nat (length (contents old)) + Z.of_nat (length (contents (table ht)))
     <= size ht ->
   contents (table (rehash_entries ht old))
   ≡ₚ contents old ++ contents (table ht)).
Proof.
  induction old as [|e old IH]; intros ht HI.
  - simpl. split; [exact HI|]. split; [reflexivity|].
    split; [apply same_config_refl|]. split; reflexivity.
  - rewrite contents_cons. cbn [rehash_entries].
    destruct (Z.eqb_spec (key e) NULL) as [Hemp|Hocc].
    + rewrite (binding_of_empty _ Hemp). simpl. apply IH. exact HI.
    + rewrite (binding_of_occupied e Hocc). simpl.
      destruct (insert_entry ht (hash_key e) (key e) (value e)) as [r ht1] eqn:Hins.
      pose proof (insert_entry_Inv _ _ _ _ _ _ HI Hocc Hins) as HI1.
      destruct HI as [Hp Hwf Hact].
      destruct (insert_entry_spec _ _ _ _ _ _ Hp Hwf Hocc Hins)
        as (Hsz & Hcfg & _ & Hres).
      simpl.
      destruct (IH ht1 HI1) as (HI2 & Hsz2 & Hcfg2 & Hsub & Hperm).
      split; [exact HI2|]. split; [congruence|].
      split; [exact (same_config_trans _ _ _ Hcfg Hcfg2)|]. split.
      * etransitivity; [exact Hsub|].
        assert (Hc1 : contents (table ht1)
                      ⊆+ (hash_key e, key e, value e) :: contents (table ht)).
        { destruct Hres as [(_ & _ & Hc)|(_ & _ & b & Hc)].
          - rewrite Hc. reflexivity.
          - rewrite <- Hc. apply submseteq_cons. reflexivity. }
        etransitivity; [apply submseteq_app; [reflexivity|exact Hc1]|].
        rewrite <- Permutation_middle. reflexivity.
      * intros Hfit.
        assert (Hok : fst (insert_entry ht (hash_key e) (key e) (value e))
                      = HT_SUCCESS).
        { apply insert_entry_success; [exact Hp|apply (wf_len _ _ Hwf)|].
          simpl in Hfit. lia. }
        rewrite Hins in Hok. simpl in Hok. subst r.
        destruct Hres as [(_ & _ & Hc)|(Hr & _)]; [|discriminate].
        rewrite Hperm.
        -- rewrite Hc. rewrite <- Permutation_middle. reflexivity.
        -- rewrite Hsz, Hc. simpl in Hfit |- *. lia.
Qed.

Lemma fresh_table_Inv ht new_size :
  pow2_size new_size -> Inv (fresh_table ht new_size).
Proof.
  intros Hp. pose proof (pow2_size_bounds _ Hp). split; simpl.
  - exact Hp.
  - apply wf_slots_replicate. lia.
  - rewrite contents_replicate_zero. reflexivity.
Qed.

Lemma validate_size_pow2 sz m : pow2_size m -> validate_size sz m = HT_SUCCESS.
Proof.
  intros Hp. pose proof (pow2_size_bounds _ Hp) as Hb.
  unfold validate_size, UINT32_MAX.
  destruct (Z.eqb_spec m 0); [lia|].
  destruct (Z.ltb_spec (4294967295 / 2) m) as [Hlt|]; [|reflexivity].
  change (4294967295 / 2) with (2 ^ 31 - 1) in Hlt.
  change (2 ^ 31) with (2 ^ 30 * 2) in Hlt. lia.
Qed.

Lemma resize_ok ht new_size :
  pow2_size new_size ->
  resize ht new_size true = (HT_SUCCESS, rehash_entries (fresh_table ht new_size) (table ht)).
Proof.
  intros Hp. unfold resize. rewrite (validate_size_pow2 _ _ Hp). reflexivity.
Qed.

Lemma resize_spec ht new_size calloc_ok r ht' :
  Inv ht -> pow2_size new_size ->
  resize ht new_size calloc_ok = (r, ht') ->
  Inv ht' /\ same_config ht ht' /\
  contents (table ht') ⊆+ contents (table ht) /\
  ((r = HT_SUCCESS /\ calloc_ok = true /\ size ht' = new_size /\
    (Z.of_nat (length (contents (table ht))) <= new_size ->
     contents (table ht') ≡ₚ contents (table ht)))
   \/ (r = HT_MEM_ERROR /\ calloc_ok = false /\ ht' = ht)).
Proof.
  intros HI Hp Hrun. destruct calloc_ok.
  - rewrite (resize_ok _ _ Hp) in Hrun. injection Hrun as <- <-.
    destruct (rehash_entries_spec (table ht) (fresh_table ht new_size)
                (fresh_table_Inv ht new_size Hp))
      as (HI' & Hsz & Hcfg & Hsub & Hperm).
    simpl in Hsub, Hperm. rewrite contents_replicate_zero in Hsub, Hperm.
    rewrite app_nil_r in Hsub, Hperm.
    split; [exact HI'|]. split.
    { destruct Hcfg as (?&?&?&?&?&?). repeat split; assumption. }
    split; [exact Hsub|]. left. split; [reflexivity|]. split; [reflexivity|].
    split; [exact Hsz|]. intros Hfit. apply Hperm. simpl. lia.
  - unfold resize in Hrun. rewrite (validate_size_pow2 _ _ Hp) in Hrun.
    simpl in Hrun. injection Hrun as <- <-.
    split; [exact HI|]. split; [apply same_config_refl|]. split; [reflexivity|].
    right. repeat split.
Qed.

(** ** [ht_insert] *)

Lemma shiftl_size m : pow2_size m -> u32 (Z.shiftl m 1) = 2 * m.
Proof.
  intros Hp. pose proof (pow2_size_bounds _ Hp) as Hb.
  rewrite Z.shiftl_mul_pow2 by lia. change (2 ^ 1) with 2.
  rewrite u32_small by (change (2 ^ 32) with (2 ^ 30 * 4); lia). lia.
Qed.

Lemma validate_size_limit sz : validate_size sz (2 * 2 ^ 30) = HT_FAILURE.
Proof. reflexivity. Qed.

Lemma call_hash_same ht ht' k len :
  same_config ht ht' -> call_hash ht' k len = call_hash ht k len.
Proof. intros (_ & _ & Hh & _). unfold call_hash. rewrite Hh. reflexivity. Qed.

Lemma ht_insert_spec ht k len v a r ht' :
  Inv ht -> ht_insert ht k len v a = (r, ht') ->
  Inv ht' /\ same_config ht ht' /\
  (size ht' = size ht \/ (size ht' = 2 * size ht /\ grow_needed ht = true)) /\
  contents (table ht') ⊆+ (call_hash ht k len, k, v) :: contents (table ht) /\
  (r = HT_SUCCESS ->
   k <> NULL /\ len <> 0 /\ ht_search ht k len = NULL /\
   contents (table ht') ≡ₚ (call_hash ht k len, k, v) :: contents (table ht)) /\
  (r = HT_INVALID_ARG \/ r = HT_KEY_EXISTS \/ r = HT_MEM_ERROR -> ht' = ht).
Proof.
  intros HI Hrun.
  assert (Hstay : forall r0, r0 <> HT_SUCCESS ->
    Inv ht /\ same_config ht ht /\
    (size ht = size ht \/ (size ht = 2 * size ht /\ grow_needed ht = true)) /\
    contents (table ht) ⊆+ (call_hash ht k len, k, v) :: contents (table ht) /\
    (r0 = HT_SUCCESS ->
     k <> NULL /\ len <> 0 /\ ht_search ht k len = NULL /\
     contents (table ht) ≡ₚ (call_hash ht k len, k, v) :: contents (table ht)) /\
    (r0 = HT_INVALID_ARG \/ r0 = HT_KEY_EXISTS \/ r0 = HT_MEM_ERROR -> ht = ht)).
  { intros r0 Hr0. split; [exact HI|]. split; [apply same_config_refl|].
    split; [left; reflexivity|]. split; [apply submseteq_cons; reflexivity|].
    split; [intros; contradiction|reflexivity]. }
  unfold ht_insert in Hrun.
  destruct (Z.eqb_spec k NULL) as [|Hk];
    [injection Hrun as <- <-; apply Hstay; discriminate|].
  destruct (Z.eqb_spec len 0) as [|Hlen];
    [injection Hrun as <- <-; apply Hstay; discriminate|].
  destruct (Z.eqb_spec (ht_search ht k len) NULL) as [Hs|Hs]; simpl in Hrun;
    [|injection Hrun as <- <-; apply Hstay; discriminate].
  pose proof HI as [Hp Hwf Hact].
  pose proof (pow2_size_bounds _ Hp) as Hb.
  pose proof (contents_length_le (table ht)) as Hcl.
  pose proof (wf_len _ _ Hwf) as Hlen'.
  (* the table the placement runs on *)
  assert (Hgrow : forall ht1,
    Inv ht1 -> same_config ht ht1 ->
    (size ht1 = size ht \/ (size ht1 = 2 * size ht /\ grow_needed ht = true)) ->
    contents (table ht1) ≡ₚ contents (table ht) ->
    insert_entry ht1 (call_hash ht1 k len) k v = (r, ht') ->
    Inv ht' /\ same_config ht ht' /\
    (size ht' = size ht \/ (size ht' = 2 * size ht /\ grow_needed ht = true)) /\
    contents (table ht') ⊆+ (call_hash ht k len, k, v) :: contents (table ht) /\
    (r = HT_SUCCESS ->
     k <> NULL /\ len <> 0 /\ ht_search ht k len = NULL /\
     contents (table ht') ≡ₚ (call_hash ht k len, k, v) :: contents (table ht)) /\
    (r = HT_INVALID_ARG \/ r = HT_KEY_EXISTS \/ r = HT_MEM_ERROR -> ht' = ht)).
  { intros ht1 HI1 Hcfg1 Hsz1 Hc1 Hins.
    rewrite (call_hash_same _ _ _ _ Hcfg1) in Hins.
    pose proof (insert_entry_Inv _ _ _ _ _ _ HI1 Hk Hins) as HI'.
    destruct (insert_entry_spec _ _ _ _ _ _ (inv_pow2 _ HI1) (inv_wf _ HI1) Hk Hins)
      as (Hsz & Hcfg & _ & Hres).
    split; [exact HI'|]. split; [exact (same_config_trans _ _ _ Hcfg1 Hcfg)|].
    split; [rewrite Hsz; exact Hsz1|].
    destruct Hres as [(-> & _ & Hc)|(-> & _ & b & Hc)].
    - rewrite Hc, Hc1. split; [reflexivity|]. split.
      + intros _. split; [exact Hk|]. split; [exact Hlen|].
        split; [exact Hs|reflexivity].
      + intros [|[|]]; discriminate.
    - split.
      + rewrite <- Hc1, <- Hc. apply submseteq_cons. reflexivity.
      + split; [discriminate|]. intros [|[|]]; discriminate. }
  unfold grow_check in Hrun.
  destruct (grow_needed ht) eqn:Hg.
  - rewrite (shiftl_size _ Hp) in Hrun.
    destruct (Z.eq_dec (size ht) (2 ^ 30)) as [E|E].
    + rewrite E, validate_size_limit in Hrun. injection Hrun as <- <-.
      apply Hstay. discriminate.
    + pose proof (pow2_size_double _ Hp E) as Hp2.
      rewrite (validate_size_pow2 _ _ Hp2) in Hrun.
      destruct (resize ht (2 * size ht) a) as [r1 ht1] eqn:Hres.
      destruct (resize_spec _ _ _ _ _ HI Hp2 Hres)
        as (HI1 & Hcfg1 & _ & [(-> & _ & Hsz1 & Hperm)|(-> & _ & ->)]).
      * apply (Hgrow ht1); try assumption.
        -- right. split; [exact Hsz1|reflexivity].
        -- apply Hperm. lia.
      * injection Hrun as <- <-. apply Hstay. discriminate.
  - apply (Hgrow ht); try assumption.
    + apply same_config_refl.
    + left. reflexivity.
    + reflexivity.
Qed.

(** ** [ht_remove] *)

Lemma shift_entries_backward_spec ht j hk pc e :
  pow2_size (size ht) -> wf_slots (size ht) (table ht) ->
  0 <= j < size ht -> occupied (slot (table ht) j) ->
  probe_func hk pc (size ht) = j -> key e = NULL ->
  exists ht2,
    shift_entries_backward (set_table ht (set_slot (table ht) j e)) j hk pc
      = Some ht2 /\
    size ht2 = size ht /\ active ht2 = active ht /\ same_config ht ht2 /\
    wf_slots (size ht) (table ht2) /\
    (hash_key (slot (table ht) j), key (slot (table ht) j),
     value (slot (table ht) j)) :: contents (table ht2)
    ≡ₚ contents (table ht).
Proof.
  intros Hp Hwf Hj Hocc Hpr He.
  pose proof (pow2_size_bounds _ Hp) as Hb.
  pose proof (wf_len _ _ Hwf) as Hlen.
  assert (H2 : 2 <= size ht) by lia.
  unfold shift_entries_backward. cbn [table size set_table].
  assert (Hnx : probe_func hk (u32 (pc + 1)) (size ht) = next_idx (size ht) j).
  { rewrite probe_func_u32, probe_func_next by exact Hp. rewrite Hpr. reflexivity. }
  rewrite Hnx.
  destruct (shift_loop_spec hk (size ht)
              (S (psl_sum (set_slot (table ht) j e)))
              (set_slot (table ht) j e) j (psl (slot (table ht) j))
              (u32 (pc + 1)) Hp
              (wf_gap_open _ _ _ e H2 Hwf Hj Hocc) Hj Hnx ltac:(lia))
    as (tb' & Hrun & Hwf' & Hperm).
  rewrite Hrun. simpl. eexists. split; [reflexivity|]. simpl.
  split; [reflexivity|]. split; [reflexivity|]. split; [repeat split|].
  split; [exact Hwf'|].
  rewrite Hperm, set_slot_twice.
  pose proof (contents_set_slot (table ht) j
                (with_key (slot (set_slot (table ht) j e) j) NULL) ltac:(lia))
    as Hc.
  rewrite (binding_of_occupied _ Hocc) in Hc.
  rewrite binding_of_empty in Hc by reflexivity. exact Hc.
Qed.

(** The shrink test depends on the counters and the lower load factor
    only. *)
Lemma shrink_needed_eq ht ht' :
  size ht' = size ht -> active ht' = active ht ->
  min_load_factor ht' = min_load_factor ht ->
  shrink_needed ht' = shrink_needed ht.
Proof. intros Hs Ha Hm. unfold shrink_needed. rewrite Hs, Ha, Hm. reflexivity. Qed.

Lemma remove_table_update_spec ht a :
  pow2_size (size ht) -> wf_slots (size ht) (table ht) ->
  active ht = Z.of_nat (length (contents (table ht))) + 1 ->
  Inv (remove_table_update ht a) /\
  same_config ht (remove_table_update ht a) /\
  contents (table (remove_table_update ht a)) ⊆+ contents (table ht) /\
  (size (remove_table_update ht a) = size ht \/
   (size (remove_table_update ht a) = size ht / 2 /\
    shrink_needed (set_active ht (u32 (active ht - 1))) = true)) /\
  (size (remove_table_update ht a) = size ht \/
   Z.of_nat (length (contents (table ht))) <= size ht / 2 ->
   contents (table (remove_table_update ht a)) ≡ₚ contents (table ht)).
Proof.
  intros Hp Hwf Hact.
  pose proof (pow2_size_bounds _ Hp) as Hb.
  pose proof (contents_length_le (table ht)) as Hcl.
  pose proof (wf_len _ _ Hwf) as Hlen.
  assert (HI1 : Inv (set_active ht (u32 (active ht - 1)))).
  { split; simpl; [exact Hp|exact Hwf|].
    rewrite u32_small by (change (2 ^ 32) with (2 ^ 30 * 4); lia). lia. }
  unfold remove_table_update.
  destruct (shrink_needed (set_active ht (u32 (active ht - 1)))) eqn:Hs.
  - assert (Hgt : 2 < size ht).
    { unfold shrink_needed in Hs. apply andb_true_iff in Hs. destruct Hs as [_ Hs].
      simpl in Hs. apply Z.ltb_lt in Hs. exact Hs. }
    pose proof (pow2_size_half _ Hp Hgt) as Hph.
    pose proof (pow2_size_bounds _ Hph) as Hbh.
    destruct (resize (set_active ht (u32 (active ht - 1)))
                     (size (set_active ht (u32 (active ht - 1))) / 2) a)
      as [r ht'] eqn:Hres.
    simpl in Hres |- *.
    destruct (resize_spec _ _ _ _ _ HI1 Hph Hres)
      as (HI' & Hcfg & Hsub & [(_ & _ & Hsz & Hperm)|(_ & _ & ->)]); simpl in *.
    + split; [exact HI'|]. split; [exact Hcfg|]. split; [exact Hsub|].
      split; [right; split; [exact Hsz|reflexivity]|].
      intros [E|E]; apply Hperm; lia.
    + split; [exact HI'|]. split; [exact Hcfg|]. split; [reflexivity|].
      split; [left; reflexivity|]. reflexivity.
  - split; [exact HI1|]. split; [repeat split|]. split; [reflexivity|].
    split; [left; reflexivity|]. reflexivity.
Qed.

Lemma remove_at_spec ht j hk pc a e :
  Inv ht -> 0 <= j < size ht -> occupied (slot (table ht) j) ->
  probe_func hk pc (size ht) = j -> key e = NULL ->
  exists ht',
    match shift_entries_backward (set_table ht (set_slot (table ht) j e)) j hk pc
    with
    | Some ht2 => Some (HT_SUCCESS, remove_table_update ht2 a)
    | None => None
    end = Some (HT_SUCCESS, ht') /\
    removed ht j ht'.
Proof.
  intros [Hp Hwf Hact] Hj Hocc Hpr He.
  destruct (shift_entries_backward_spec ht j hk pc e Hp Hwf Hj Hocc Hpr He)
    as (ht2 & Hrun & Hsz & Ha & Hcfg & Hwf2 & Hperm).
  rewrite Hrun. eexists. split; [reflexivity|].
  assert (Hlen2 : Z.of_nat (length (contents (table ht)))
                  = Z.of_nat (length (contents (table ht2))) + 1).
  { rewrite <- Hperm. rewrite length_cons. lia. }
  rewrite <- Hsz in Hp, Hwf2.
  assert (Hact2 : active ht2 = Z.of_nat (length (contents (table ht2))) + 1)
    by lia.
  destruct (remove_table_update_spec ht2 a Hp Hwf2 Hact2)
    as (HI & Hcfg' & Hsub & Hsize & Heq).
  unfold removed. cbv zeta.
  split; [exact HI|]. split; [exact (same_config_trans _ _ _ Hcfg Hcfg')|].
  split; [rewrite <- Hperm; apply submseteq_skip; exact Hsub|].
  rewrite Hsz in Hsize, Heq. split.
  - destruct Hsize as [E|[E Hs]]; [left; exact E|right; split; [exact E|]].
    rewrite <- Hs. symmetry. rewrite Ha.
    apply shrink_needed_eq; simpl; [exact Hsz|reflexivity|apply Hcfg].
  - intros Hcase. rewrite <- Hperm. apply Permutation_skip. apply Heq.
    destruct Hcase; [left; assumption|right; lia].
Qed.

(** Removal of a key no slot holds changes nothing. *)
Lemma remove_loop_absent n : forall ht hk k a i,
  pow2_size (size ht) ->
  (forall j, 0 <= j < size ht -> ~ matches ht hk k (slot (table ht) j)) ->
  remove_loop ht hk k a n i = Some (HT_KEY_NOT_FOUND, ht).
Proof.
  induction n as [|n IH]; intros ht hk k a i Hp Hno; simpl; [reflexivity|].
  destruct (Z.eqb_spec (key (slot (table ht) (probe_func hk i (size ht)))) NULL)
    as [|Hocc]; [reflexivity|].
  destruct ((hash_key _ =? hk) && _) eqn:Ht.
  - exfalso. apply (Hno (probe_func hk i (size ht))).
    + apply probe_func_range. exact Hp.
    + apply matches_test; assumption.
  - destruct (psl _ <? i); [reflexivity|]. apply IH; assumption.
Qed.

(** Removal never misses: with the key stored at step [i] or later, the
    loop removes a slot that holds it. *)
Lemma remove_loop_found n : forall ht hk k a i j,
  Inv ht -> Z.of_nat n = size ht - i -> 0 <= i ->
  0 <= j < size ht -> matches ht hk k (slot (table ht) j) ->
  i <= psl (slot (table ht) j) ->
  exists j' ht',
    0 <= j' < size ht /\ matches ht hk k (slot (table ht) j') /\
    remove_loop ht hk k a n i = Some (HT_SUCCESS, ht') /\
    removed ht j' ht'.
Proof.
  induction n as [|n IH]; intros ht hk k a i j HI Hn Hi Hj Hm Hle;
    pose proof HI as [Hp Hwf Hact].
  - destruct Hm as (Hocc & _). destruct (wf_home _ _ Hwf j Hj Hocc). lia.
  - pose proof (pow2_size_bounds _ Hp) as Hb.
    cbn [remove_loop]. 
    assert (Hpr : probe_func hk i (size ht) = (hk + i) mod size ht)
      by (apply probe_func_mod; exact Hp).
    set (idx := probe_func hk i (size ht)) in *.
    assert (Hidx : 0 <= idx < size ht) by (apply probe_func_range; exact Hp).
    pose proof Hm as (Hocc & Hh & Hcmp).
    assert (H2 : 2 <= size ht) by lia.
    assert (Hd : 0 <= i <= psl (slot (table ht) j)) by lia.
    destruct (probe_path _ _ j H2 Hwf Hj Hocc i Hd) as [Ho Hpi].
    rewrite Hh, <- Hpr in Ho, Hpi.
    destruct (Z.eqb_spec (key (slot (table ht) idx)) NULL) as [E|_];
      [contradiction|].
    destruct ((hash_key (slot (table ht) idx) =? hk)
              && (cmp_func ht (key (slot (table ht) idx)) k =? 0)) eqn:Ht.
    + destruct (remove_at_spec ht idx hk i a
                  (with_value (with_key (free_entry ht (slot (table ht) idx)) NULL)
                              NULL) HI Hidx Ho eq_refl eq_refl)
        as (ht' & Hrun & Hrem).
      exists idx, ht'. split; [exact Hidx|]. split; [|split; assumption].
      apply matches_test; assumption.
    + destruct (Z.ltb_spec (psl (slot (table ht) idx)) i) as [Hlt|_]; [lia|].
      apply (IH ht hk k a (i + 1) j); try assumption; try lia.
      destruct (Z.eq_dec i (psl (slot (table ht) j))) as [E|E]; [|lia].
      exfalso. destruct (wf_home _ _ Hwf j Hj Hocc) as [_ Hhome].
      rewrite Hh, <- E, <- Hpr in Hhome. rewrite Hhome in Ht.
      apply (matches_test ht hk k _ Hocc) in Hm. congruence.
Qed.

Lemma ht_remove_found ht k len a j :
  Inv ht -> k <> NULL -> len <> 0 -> 0 <= j < size ht ->
  matches ht (call_hash ht k len) k (slot (table ht) j) ->
  exists j' ht',
    0 <= j' < size ht /\
    matches ht (call_hash ht k len) k (slot (table ht) j') /\
    ht_remove ht k len a = Some (HT_SUCCESS, ht') /\
    removed ht j' ht'.
Proof.
  intros HI Hk Hlen Hj Hm. pose proof HI as [Hp Hwf _].
  pose proof (pow2_size_bounds _ Hp) as Hb.
  unfold ht_remove, remove_entry.
  destruct (Z.eqb_spec k NULL); [contradiction|].
  destruct (Z.eqb_spec len 0); [contradiction|].
  apply (remove_loop_found _ ht _ k a 0 j); try assumption; try lia.
  destruct Hm as (Hocc & _). destruct (wf_home _ _ Hwf j Hj Hocc). lia.
Qed.

Lemma ht_remove_absent ht k len a :
  pow2_size (size ht) -> k <> NULL -> len <> 0 ->
  (forall j, 0 <= j < size ht ->
     ~ matches ht (call_hash ht k len) k (slot (table ht) j)) ->
  ht_remove ht k len a = Some (HT_KEY_NOT_FOUND, ht).
Proof.
  intros Hp Hk Hlen Hno. unfold ht_remove, remove_entry.
  destruct (Z.eqb_spec k NULL); [contradiction|].
  destruct (Z.eqb_spec len 0); [contradiction|].
  apply remove_loop_absent; assumption.
Qed.

(** [ht_remove] always returns, and its outcomes are these three. *)
Lemma ht_remove_cases ht k len a :
  Inv ht ->
  ht_remove ht k len a = Some (HT_INVALID_ARG, ht) \/
  ht_remove ht k len a = Some (HT_KEY_NOT_FOUND, ht) \/
  exists j ht', 0 <= j < size ht /\ k <> NULL /\ len <> 0 /\
    matches ht (call_hash ht k len) k (slot (table ht) j) /\
    ht_remove ht k len a = Some (HT_SUCCESS, ht') /\ removed ht j ht'.
Proof.
  intros HI. pose proof HI as [Hp Hwf _].
  destruct (Z.eq_dec k NULL) as [->|Hk]; [left; reflexivity|].
  destruct (Z.eq_dec len 0) as [->|Hlen].
  { left. unfold ht_remove. destruct (k =? NULL); reflexivity. }
  right.
  assert (Hdec : (exists j, 0 <= j < size ht /\
                   matches ht (call_hash ht k len) k (slot (table ht) j)) \/
                 (forall j, 0 <= j < size ht ->
                   ~ matches ht (call_hash ht k len) k (slot (table ht) j))).
  { pose proof (pow2_size_bounds _ Hp) as Hb.
    assert (Hgen : forall n : nat,
              (exists j, 0 <= j < Z.of_nat n /\
                 matches ht (call_hash ht k len) k (slot (table ht) j)) \/
              (forall j, 0 <= j < Z.of_nat n ->
                 ~ matches ht (call_hash ht k len) k (slot (table ht) j))).
    { induction n as [|n [(j & Hj & Hm)|Hno]].
      - right. intros j Hj. lia.
      - left. exists j. split; [lia|exact Hm].
      - destruct (matches_dec ht (call_hash ht k len) k
                    (slot (table ht) (Z.of_nat n))) as [Hm|Hm].
        + left. exists (Z.of_nat n). split; [lia|exact Hm].
        + right. intros j Hj. destruct (Z.eq_dec j (Z.of_nat n)) as [->|];
            [exact Hm|apply Hno; lia]. }
    specialize (Hgen (Z.to_nat (size ht))).
    rewrite Z2Nat.id in Hgen by lia. exact Hgen. }
  destruct Hdec as [(j & Hj & Hm)|Hno].
  - right. destruct (ht_remove_found ht k len a j HI Hk Hlen Hj Hm)
      as (j' & ht' & Hj' & Hm' & Hrun & Hrem).
    exists j', ht'. split; [exact Hj'|]. split; [exact Hk|]. split; [exact Hlen|].
    split; [exact Hm'|]. split; assumption.
  - left. apply ht_remove_absent; assumption.
Qed.

(** ** Reachable tables *)

Lemma ht_create_spec mem config ht :
  ht_create mem config true true = Some ht ->
  Inv ht /\ size ht = 2 /\ active ht = 0 /\ contents (table ht) = [] /\
  validate_load_factors (cfg_load_factor config) (cfg_min_load_factor config)
    = HT_SUCCESS.
Proof.
  unfold ht_create. intros H.
  destruct (validate_load_factors _ _) eqn:Hv; try discriminate.
  simpl in H. injection H as <-. simpl.
  split; [|repeat split].
  split; simpl.
  - exists 1. split; [lia|reflexivity].
  - apply (wf_slots_replicate 2). lia.
  - reflexivity.
Qed.

(** One operation on a well-formed table returns, keeps the table well
    formed and stores no binding but those it had and the inserted one. *)
Lemma step_spec ht o :
  Inv ht ->
  exists ht', step ht o = Some ht' /\ Inv ht' /\ same_config ht ht' /\
    match o with
    | OpInsert k len v _ =>
        contents (table ht') ⊆+ (call_hash ht k len, k, v) :: contents (table ht)
    | OpRemove _ _ _ => contents (table ht') ⊆+ contents (table ht)
    end.
Proof.
  intros HI. destruct o as [k len v a|k len a]; simpl.
  - destruct (ht_insert ht k len v a) as [r ht'] eqn:Hrun.
    destruct (ht_insert_spec _ _ _ _ _ _ _ HI Hrun) as (HI' & Hcfg & _ & Hsub & _).
    exists ht'. simpl. split; [reflexivity|]. split; [exact HI'|].
    split; [exact Hcfg|exact Hsub].
  - destruct (ht_remove_cases ht k len a HI)
      as [->|[->|(j & ht' & _ & _ & _ & _ & -> & Hrem)]]; simpl.
    + exists ht. split; [reflexivity|]. split; [exact HI|].
      split; [apply same_config_refl|reflexivity].
    + exists ht. split; [reflexivity|]. split; [exact HI|].
      split; [apply same_config_refl|reflexivity].
    + destruct Hrem as (HI' & Hcfg & Hsub & _).
      exists ht'. split; [reflexivity|]. split; [exact HI'|]. split; [exact Hcfg|].
      etransitivity; [|exact Hsub]. apply submseteq_cons. reflexivity.
Qed.

Lemma run_spec ops : forall ht,
  Inv ht -> exists ht', run ht ops = Some ht' /\ Inv ht' /\ same_config ht ht'.
Proof.
  induction ops as [|o ops IH]; intros ht HI; simpl.
  - exists ht. split; [reflexivity|]. split; [exact HI|apply same_config_refl].
  - destruct (step_spec ht o HI) as (ht1 & -> & HI1 & Hcfg1 & _).
    destruct (IH ht1 HI1) as (ht' & Hrun & HI' & Hcfg').
    exists ht'. split; [exact Hrun|]. split; [exact HI'|].
    exact (same_config_trans _ _ _ Hcfg1 Hcfg').
Qed.

Lemma run_Inv ops ht ht' : Inv ht -> run ht ops = Some ht' -> Inv ht'.
Proof.
  intros HI Hrun. destruct (run_spec ops ht HI) as (ht2 & Hrun2 & HI2 & _).
  congruence.
Qed.

Lemma run_same_config ops ht ht' :
  Inv ht -> run ht ops = Some ht' -> same_config ht ht'.
Proof.
  intros HI Hrun. destruct (run_spec ops ht HI) as (ht2 & Hrun2 & _ & Hcfg).
  congruence.
Qed.

Lemma reachable_Inv ht : reachable ht -> Inv ht.
Proof.
  intros (mem & config & ht0 & ops & Hc & Hrun).
  apply ht_create_spec in Hc. destruct Hc as (HI & _).
  exact (run_Inv ops ht0 ht HI Hrun).
Qed.

Lemma Forall_sub {A} (P : A -> Prop) (l k : list A) :
  l ⊆+ k -> Forall P k -> Forall P l.
Proof.
  intros Hsub. rewrite !Forall_forall. intros HP x Hx.
  apply HP. exact (elem_of_submseteq _ _ _ Hx Hsub).
Qed.

(** A property of bindings that every inserted binding has holds of all
    the stored bindings. *)
Lemma run_bindings (P : binding -> Prop) ops : forall ht ht',
  Inv ht ->
  Forall (fun o => match o with
                   | OpInsert k len v _ => forall hk, P (hk, k, v)
                   | OpRemove _ _ _ => True
                   end) ops ->
  Forall P (contents (table ht)) ->
  run ht ops = Some ht' -> Forall P (contents (table ht')).
Proof.
  induction ops as [|o ops IH]; intros ht ht' HI Hops HP Hrun; simpl in Hrun.
  - injection Hrun as <-. exact HP.
  - inversion Hops as [|? ? Ho Hrest]; subst.
    destruct (step_spec ht o HI) as (ht1 & Hstep & HI1 & _ & Hsub).
    rewrite Hstep in Hrun. apply (IH ht1 ht' HI1 Hrest); [|exact Hrun].
    destruct o as [k len v a|k len a].
    + eapply Forall_sub; [exact Hsub|]. constructor; [apply Ho|exact HP].
    + eapply Forall_sub; [exact Hsub|exact HP].
Qed.

(** * The specification *)

(** ** Round trip *)

(** A stored binding sits in a slot. *)
Lemma binding_slot ht hk k v :
  (hk, k, v) ∈ contents (table ht) ->
  exists j, 0 <= j < Z.of_nat (length (table ht)) /\
    occupied (slot (table ht) j) /\ hash_key (slot (table ht) j) = hk /\
    key (slot (table ht) j) = k /\ value (slot (table ht) j) = v.
Proof.
  intros H. apply elem_contents in H. destruct H as (j & Hj & Ho & E).
  injection E as -> -> ->. exists j. repeat split; assumption || lia.
Qed.

(** C1.  After any sequence of insertions and removals of other keys on a
    created table, an insertion of [k] with value [v] that returns
    [HT_SUCCESS] makes the search of [k] return [v].  Other keys are the
    keys the comparison tells apart from [k]; the comparison is taken to
    find [k] equal to itself. *)
Theorem insert_search_roundtrip mem config ht0 ops ht k len v a ht' :
  ht_create mem config true true = Some ht0 ->
  Forall (fun o => cmp_func ht0 (op_key o) k <> 0) ops ->
  cmp_func ht0 k k = 0 ->
  run ht0 ops = Some ht ->
  ht_insert ht k len v a = (HT_SUCCESS, ht') ->
  ht_search ht' k len = v.
Proof.
  intros Hc Hops Hrefl Hrun Hins.
  apply ht_create_spec in Hc. destruct Hc as (HI0 & _ & _ & Hc0 & _).
  pose proof (run_Inv _ _ _ HI0 Hrun) as HI.
  pose proof (run_same_config _ _ _ HI0 Hrun) as Hcfg0.
  assert (Hothers : Forall (fun b : binding => cmp_func ht0 (snd (fst b)) k <> 0)
                           (contents (table ht))).
  { apply (run_bindings _ ops ht0 ht HI0); [|rewrite Hc0; constructor|exact Hrun].
    eapply Forall_impl; [exact Hops|]. intros [k' ? ? ?|k' ? ?] Hk'; simpl in *;
      [intros _; exact Hk'|exact I]. }
  destruct (ht_insert_spec _ _ _ _ _ _ _ HI Hins)
    as (HI' & Hcfg & _ & _ & Hok & _).
  destruct (Hok eq_refl) as (Hk & Hlen & _ & Hperm).
  assert (Hcmp : cmp_func ht' = cmp_func ht0).
  { destruct Hcfg as (_ & _ & _ & E1 & _). destruct Hcfg0 as (_ & _ & _ & E0 & _).
    congruence. }
  assert (Hin : (call_hash ht k len, k, v) ∈ contents (table ht'))
    by (rewrite Hperm; left).
  apply binding_slot in Hin. destruct Hin as (j & Hj & Ho & Eh & Ek & Ev).
  pose proof (wf_len _ _ (inv_wf _ HI')) as Hlen'.
  destruct (ht_search_finds ht' k len j HI' Hk Hlen ltac:(lia)) as (j' & Hj' & Hm & ->).
  { split; [exact Ho|]. rewrite (call_hash_same _ _ _ _ Hcfg), Eh, Ek, Hcmp.
    split; [reflexivity|exact Hrefl]. }
  destruct Hm as (Ho' & _ & Hc').
  pose proof (contents_elem (table ht') j' ltac:(lia) Ho') as Hin'.
  rewrite Hperm in Hin'. apply elem_of_cons in Hin'. destruct Hin' as [E|Hin'].
  - injection E as _ _ ->. reflexivity.
  - exfalso. rewrite Forall_forall in Hothers. apply (Hothers _ Hin'). simpl.
    rewrite <- Hcmp. exact Hc'.
Qed.

(** ** Tables whose stored values are not [NULL] *)

Section Comparison.

Variable cmp : ptr -> ptr -> Z.
Hypothesis cmp_sym : forall a b, cmp a b = 0 -> cmp b a = 0.

Lemma same_key_sym b1 b2 : same_key cmp b1 b2 -> same_key cmp b2 b1.
Proof. intros [E H]. split; [symmetry; exact E|apply cmp_sym; exact H]. Qed.

Lemma uniq_perm l l' : l ≡ₚ l' -> uniq cmp l -> uniq cmp l'.
Proof.
  induction 1 as [|x l l' Hp IH|x y l|l l' l'' _ IH1 _ IH2]; simpl.
  - trivial.
  - intros [Hx Hu]. split; [rewrite <- Hp; exact Hx|apply IH; exact Hu].
  - intros (Hy & Hx & Hu).
    inversion Hy as [|? ? Hyx Hyl]; subst.
    split; [constructor; [|exact Hx]|split; assumption].
    intros Hs. apply Hyx. apply same_key_sym. exact Hs.
  - intros Hu. apply IH2, IH1, Hu.
Qed.

Lemma uniq_app_l l k : uniq cmp (l ++ k) -> uniq cmp l.
Proof.
  induction l as [|b l IH]; simpl; [trivial|].
  intros [Hb Hu]. split; [|apply IH; exact Hu].
  apply Forall_app in Hb. apply Hb.
Qed.

Lemma uniq_sub l k : l ⊆+ k -> uniq cmp k -> uniq cmp l.
Proof.
  intros Hsub Hu. apply submseteq_Permutation in Hsub.
  destruct Hsub as (k' & Hk). apply (uniq_app_l l k').
  apply (uniq_perm k); assumption.
Qed.

End Comparison.

(** With non-null values stored, a search that returns [NULL] has found
    no slot holding the key. *)
Lemma ht_search_null_absent ht k len :
  Inv ht -> Forall value_nonnull (contents (table ht)) ->
  k <> NULL -> len <> 0 -> ht_search ht k len = NULL ->
  forall j, 0 <= j < size ht ->
    ~ matches ht (call_hash ht k len) k (slot (table ht) j).
Proof.
  intros HI Hnn Hk Hlen Hs j Hj Hm.
  destruct (ht_search_finds ht k len j HI Hk Hlen Hj Hm) as (j' & Hj' & Hm' & E).
  destruct Hm' as (Ho & _).
  pose proof (wf_len _ _ (inv_wf _ HI)) as Hl.
  pose proof (contents_elem (table ht) j' ltac:(lia) Ho) as Hin.
  rewrite Forall_forall in Hnn. apply (Hnn _ Hin). simpl. congruence.
Qed.

Lemma ht_insert_rejected ht k len v a :
  k = NULL \/ len = 0 \/ ht_search ht k len <> NULL ->
  snd (ht_insert ht k len v a) = ht.
Proof.
  intros H. unfold ht_insert.
  destruct (Z.eqb_spec k NULL); [reflexivity|].
  destruct (Z.eqb_spec len 0); [reflexivity|].
  destruct (Z.eqb_spec (ht_search ht k len) NULL); [tauto|reflexivity].
Qed.

(** Operations that store non-null values only keep the stored keys
    pairwise different. *)
Lemma run_uniq ops : forall ht ht',
  Inv ht ->
  (forall x y, cmp_func ht x y = 0 -> cmp_func ht y x = 0) ->
  Forall op_value_nonnull ops ->
  Forall value_nonnull (contents (table ht)) ->
  uniq (cmp_func ht) (contents (table ht)) ->
  run ht ops = Some ht' ->
  Forall value_nonnull (contents (table ht')) /\
  uniq (cmp_func ht) (contents (table ht')).
Proof.
  induction ops as [|o ops IH]; intros ht ht' HI Hsym Hops Hnn Hu Hrun;
    simpl in Hrun.
  - injection Hrun as <-. split; assumption.
  - inversion Hops as [|? ? Ho Hrest]; subst.
    destruct (step_spec ht o HI) as (ht1 & Hstep & HI1 & Hcfg & Hsub).
    rewrite Hstep in Hrun.
    assert (Hcmp : cmp_func ht1 = cmp_func ht) by apply Hcfg.
    assert (H1 : Forall value_nonnull (contents (table ht1)) /\
                 uniq (cmp_func ht) (contents (table ht1))).
    { destruct o as [k len v a|k len a].
      - destruct (Z.eq_dec k NULL) as [Hk|Hk];
          [|destruct (Z.eq_dec len 0) as [Hlen|Hlen];
            [|destruct (Z.eq_dec (ht_search ht k len) NULL) as [Hs|Hs]]].
        1,2,4: simpl in Hstep; injection Hstep as <-;
               rewrite ht_insert_rejected by tauto; split; assumption.
        assert (Hnew : Forall (fun b' => ~ same_key (cmp_func ht)
                                           (call_hash ht k len, k, v) b')
                              (contents (table ht))).
        { rewrite Forall_forall. intros [[h' k'] v'] Hin [Eh Ec]. simpl in Eh, Ec.
          apply binding_slot in Hin. destruct Hin as (j & Hj & Hoc & E1 & E2 & E3).
          pose proof (wf_len _ _ (inv_wf _ HI)) as Hl.
          apply (ht_search_null_absent ht k len HI Hnn Hk Hlen Hs j ltac:(lia)).
          split; [exact Hoc|]. rewrite E1, E2. split; [congruence|].
          apply Hsym. exact Ec. }
        split.
        + eapply Forall_sub; [exact Hsub|]. constructor; [exact Ho|exact Hnn].
        + apply (uniq_sub _ Hsym _ _ Hsub). simpl. split; assumption.
      - split.
        + eapply Forall_sub; [exact Hsub|exact Hnn].
        + apply (uniq_sub _ Hsym _ _ Hsub). exact Hu. }
    destruct H1 as [Hnn1 Hu1].
    rewrite <- Hcmp in Hu1 |- *. rewrite <- Hcmp in Hsym.
    apply (IH ht1 ht' HI1 Hsym Hrest Hnn1 Hu1 Hrun).
Qed.

(** ** No duplicates *)

(** Where the duplicate guard of [ht_insert] works: on every reachable
    table, when the key is present and every slot that holds it carries a
    non-null value, the insertion returns [HT_KEY_EXISTS] and leaves the
    whole table (count, capacity, slots and stored values) as it was. *)
Lemma ht_search_present_valued ht k len :
  reachable ht -> k <> NULL -> len <> 0 -> present ht k len ->
  (forall j, 0 <= j < size ht ->
     matches ht (call_hash ht k len) k (slot (table ht) j) ->
     value (slot (table ht) j) <> NULL) ->
  ht_search ht k len <> NULL.
Proof.
  intros Hr Hk Hlen (j & Hj & Hm) Hval. pose proof (reachable_Inv _ Hr) as HI.
  destruct (ht_search_finds ht k len j HI Hk Hlen Hj Hm) as (j' & Hj' & Hm' & E).
  rewrite E. exact (Hval j' Hj' Hm').
Qed.

(** X21.  On every reachable table, for a valid key that is present and
    whose slots all carry non-null values (whatever the other slots
    carry), [ht_insert] returns [HT_KEY_EXISTS] and leaves the table
    unchanged. *)
Theorem insert_valued_key_exists ht k len v a :
  reachable ht -> k <> NULL -> len <> 0 -> present ht k len ->
  (forall j, 0 <= j < size ht ->
     matches ht (call_hash ht k len) k (slot (table ht) j) ->
     value (slot (table ht) j) <> NULL) ->
  ht_insert ht k len v a = (HT_KEY_EXISTS, ht).
Proof.
  intros Hr Hk Hlen Hp Hval.
  pose proof (ht_search_present_valued ht k len Hr Hk Hlen Hp Hval) as Hs.
  unfold ht_insert.
  destruct (Z.eqb_spec k NULL); [contradiction|].
  destruct (Z.eqb_spec len 0); [contradiction|].
  destruct (Z.eqb_spec (ht_search ht k len) NULL); [contradiction|reflexivity].
Qed.

(** ** Deletion completeness *)

(** Counting the slots that hold a key. *)
Lemma filter_length_sub {A} (f : A -> bool) (l1 l2 : list A) :
  l1 ⊆+ l2 -> (length (List.filter f l1) <= length (List.filter f l2))%nat.
Proof.
  induction 1 as [|x l1 l2 _ IH|x y l|x l1 l2 _ IH|l1 l2 l3 _ IH1 _ IH2]; simpl.
  - lia.
  - destruct (f x); simpl; lia.
  - destruct (f x), (f y); simpl; lia.
  - destruct (f x); simpl; lia.
  - lia.
Qed.

Lemma holds_key_matches ht k len j :
  Z.of_nat (length (table ht)) = size ht -> 0 <= j < size ht ->
  matches ht (call_hash ht k len) k (slot (table ht) j) ->
  exists b, b ∈ contents (table ht) /\ holds_key ht k len b = true /\
            b = (hash_key (slot (table ht) j), key (slot (table ht) j),
                 value (slot (table ht) j)).
Proof.
  intros Hl Hj (Ho & Eh & Ec). eexists. split; [|split; [|reflexivity]].
  - apply contents_elem; [lia|exact Ho].
  - unfold holds_key. simpl. rewrite Eh, Ec, !Z.eqb_refl. reflexivity.
Qed.

Lemma stored_count_present ht k len :
  Z.of_nat (length (table ht)) = size ht ->
  stored_count ht k len <> O -> present ht k len.
Proof.
  unfold stored_count. intros Hl H.
  destruct (List.filter _ _) as [|b l] eqn:E; [contradiction|].
  assert (Hin : In b (List.filter (holds_key ht k len) (contents (table ht))))
    by (rewrite E; left; reflexivity).
  apply filter_In in Hin. destruct Hin as [Hin Hb].
  apply list_elem_of_In in Hin. apply elem_contents in Hin.
  destruct Hin as (j & Hj & Ho & ->). unfold holds_key in Hb. simpl in Hb.
  apply andb_true_iff in Hb. destruct Hb as [Hh Hc].
  exists j. split.
  - lia.
  - split; [exact Ho|]. split; [apply Z.eqb_eq; exact Hh|apply Z.eqb_eq; exact Hc].
Qed.

(** X22.  On every reachable table, for a valid key that exactly one
    slot holds, [ht_remove] returns [HT_SUCCESS]; afterwards no slot holds
    the key, [ht_search] returns [NULL] and a second [ht_remove] returns
    [HT_KEY_NOT_FOUND] with the table unchanged.  Nothing is asked of the
    comparison or of the stored values. *)
Theorem remove_stored_once_then_absent ht k len a a' :
  reachable ht -> k <> NULL -> len <> 0 -> stored_count ht k len = 1%nat ->
  exists ht1,
    ht_remove ht k len a = Some (HT_SUCCESS, ht1) /\
    stored_count ht1 k len = O /\
    ht_search ht1 k len = NULL /\
    ht_remove ht1 k len a' = Some (HT_KEY_NOT_FOUND, ht1).
Proof.
  intros Hr Hk Hlen Hone. pose proof (reachable_Inv _ Hr) as HI.
  pose proof (wf_len _ _ (inv_wf _ HI)) as Hl.
  destruct (stored_count_present ht k len Hl) as (j & Hj & Hm);
    [rewrite Hone; discriminate|].
  destruct (ht_remove_found ht k len a j HI Hk Hlen Hj Hm)
    as (j' & ht1 & Hj' & Hm' & Hrem & Hrm).
  destruct Hrm as (HI1 & Hcfg & Hsub & _).
  pose proof (wf_len _ _ (inv_wf _ HI1)) as Hl1.
  assert (Hsame : forall b, holds_key ht1 k len b = holds_key ht k len b).
  { intros b. unfold holds_key. rewrite (call_hash_same _ _ _ _ Hcfg).
    destruct Hcfg as (_ & _ & _ & Ec & _). rewrite Ec. reflexivity. }
  assert (Hzero : stored_count ht1 k len = O).
  { destruct (holds_key_matches ht k len j' Hl Hj' Hm') as (b & _ & Hb & ->).
    apply (filter_length_sub (holds_key ht k len)) in Hsub.
    simpl in Hsub. rewrite Hb in Hsub. simpl in Hsub.
    unfold stored_count in *. rewrite Hone in Hsub.
    rewrite (filter_ext _ _ Hsame). lia. }
  assert (Habs : forall i, 0 <= i < size ht1 ->
            ~ matches ht1 (call_hash ht1 k len) k (slot (table ht1) i)).
  { intros i Hi Hmi.
    destruct (holds_key_matches ht1 k len i Hl1 Hi Hmi) as (b & Hin & Hb & _).
    unfold stored_count in Hzero. apply length_zero_iff_nil in Hzero.
    assert (Hf : In b (List.filter (holds_key ht1 k len) (contents (table ht1)))).
    { apply filter_In. split; [apply list_elem_of_In; exact Hin|exact Hb]. }
    rewrite Hzero in Hf. exact Hf. }
  exists ht1. split; [exact Hrem|]. split; [exact Hzero|]. split.
  - destruct (ht_search_sound ht1 k len (inv_pow2 _ HI1))
      as [E|(i & Hi & Hmi & _)]; [exact E|].
    exfalso. exact (Habs i Hi Hmi).
  - apply ht_remove_absent; [exact (inv_pow2 _ HI1)|exact Hk|exact Hlen|exact Habs].
Qed.

(** ** The Robin-Hood invariant *)

(** A slot that is closer to its home than step [i] of the probe sequence
    of a key ends the sequence: the key is stored at no later step. *)
Lemma early_stop_sound ht hk k i j :
  Inv ht -> 0 <= i ->
  occupied (slot (table ht) (probe_func hk i (size ht))) ->
  psl (slot (table ht) (probe_func hk i (size ht))) < i ->
  0 <= j < size ht -> matches ht hk k (slot (table ht) j) ->
  psl (slot (table ht) j) < i.
Proof.
  intros [Hp Hwf _] Hi Ho Hlt Hj (Hoj & Hh & _).
  pose proof (pow2_size_bounds _ Hp) as Hb.
  destruct (Z_lt_le_dec (psl (slot (table ht) j)) i) as [|Hle]; [assumption|].
  exfalso.
  assert (H2 : 2 <= size ht) by lia.
  assert (Hd : 0 <= i <= psl (slot (table ht) j)) by lia.
  destruct (probe_path _ _ j H2 Hwf Hj Hoj i Hd) as [_ Hge].
  rewrite Hh, <- (probe_func_mod hk i _ Hp) in Hge. lia.
Qed.

(** C4, amended.  On every table reached from a created one: when the
    slots at the steps before [i] of the probe sequence of [k] do not hold
    [k] and the slot at step [i] is occupied with [psl < i], the key is
    absent from the table; and the early exits never miss a present key:
    the search of a present key returns the value of a slot that holds it
    and its removal returns [HT_SUCCESS]. *)
Theorem robin_hood_invariant ht k len :
  reachable ht ->
  (forall i, 0 <= i < size ht ->
     (forall i', 0 <= i' < i ->
        ~ matches ht (call_hash ht k len) k
            (slot (table ht) (probe_func (call_hash ht k len) i' (size ht)))) ->
     occupied (slot (table ht) (probe_func (call_hash ht k len) i (size ht))) ->
     psl (slot (table ht) (probe_func (call_hash ht k len) i (size ht))) < i ->
     ~ present ht k len) /\
  (k <> NULL -> len <> 0 -> present ht k len ->
     (exists j, 0 <= j < size ht /\
        matches ht (call_hash ht k len) k (slot (table ht) j) /\
        ht_search ht k len = value (slot (table ht) j)) /\
     (forall a, exists ht', ht_remove ht k len a = Some (HT_SUCCESS, ht'))).
Proof.
  intros Hr. pose proof (reachable_Inv _ Hr) as HI.
  pose proof HI as [Hp Hwf _]. pose proof (pow2_size_bounds _ Hp) as Hb.
  split.
  - intros i Hi Hbefore Ho Hlt (j & Hj & Hm).
    pose proof (early_stop_sound ht _ k i j HI ltac:(lia) Ho Hlt Hj Hm) as Hpj.
    pose proof Hm as (Hoj & Hh & _).
    destruct (wf_home _ _ Hwf j Hj Hoj) as [Hpr Hhome].
    apply (Hbefore (psl (slot (table ht) j))); [lia|].
    rewrite probe_func_mod by exact Hp. rewrite <- Hh at 2. rewrite Hhome.
    exact Hm.
  - intros Hk Hlen (j & Hj & Hm). split.
    + exact (ht_search_finds ht k len j HI Hk Hlen Hj Hm).
    + intros a. destruct (ht_remove_found ht k len a j HI Hk Hlen Hj Hm)
        as (j' & ht' & _ & _ & Hrun & _).
      exists ht'. exact Hrun.
Qed.

(** ** Capacity *)

Lemma grow_check_spec ht a r ht1 :
  Inv ht -> grow_check ht a = (r, ht1) ->
  Inv ht1 /\
  (size ht1 = size ht \/ (size ht1 = 2 * size ht /\ grow_needed ht = true)).
Proof.
  intros HI Hrun. pose proof HI as [Hp Hwf Hact].
  unfold grow_check in Hrun. destruct (grow_needed ht) eqn:Hg.
  - rewrite (shiftl_size _ Hp) in Hrun.
    destruct (Z.eq_dec (size ht) (2 ^ 30)) as [E|E].
    + rewrite E, validate_size_limit in Hrun. injection Hrun as <- <-.
      split; [exact HI|left; reflexivity].
    + pose proof (pow2_size_double _ Hp E) as Hp2.
      rewrite (validate_size_pow2 _ _ Hp2) in Hrun.
      destruct (resize_spec _ _ _ _ _ HI Hp2 Hrun)
        as (HI1 & _ & _ & [(_ & _ & Hsz & _)|(_ & _ & ->)]).
      * split; [exact HI1|right; split; [exact Hsz|reflexivity]].
      * split; [exact HI|left; reflexivity].
  - injection Hrun as <- <-. split; [exact HI|left; reflexivity].
Qed.

(** C5.  A created table has capacity 2 and no active entry; on every
    reachable table the capacity is a power of two and at least 2; an
    insertion leaves the capacity or doubles it, and doubles it only when
    [active + 1 > capacity * load_factor]; a removal leaves the capacity
    (it always returns) or halves it, and halves it only when the
    decremented count satisfies [active < capacity * min_load_factor] and
    the capacity is above 2. *)
Theorem capacity_invariants ht :
  reachable ht ->
  (forall mem config ht0,
     ht_create mem config true true = Some ht0 -> size ht0 = 2 /\ active ht0 = 0) /\
  ((exists e, 1 <= e /\ size ht = 2 ^ e) /\ 2 <= size ht) /\
  (forall k len v a,
     size (snd (ht_insert ht k len v a)) = size ht \/
     (size (snd (ht_insert ht k len v a)) = 2 * size ht /\
      f32_gt (f32_of_Z (active ht + 1))
             (f32_mul (f32_of_Z (size ht)) (load_factor ht)) = true)) /\
  (forall k len a,
     exists r ht',
       ht_remove ht k len a = Some (r, ht') /\
       (size ht' = size ht \/
        (size ht' = size ht / 2 /\
         f32_lt (f32_of_Z (active ht - 1))
                (f32_mul (f32_of_Z (size ht)) (min_load_factor ht)) = true /\
         2 < size ht))).
Proof.
  intros Hr. pose proof (reachable_Inv _ Hr) as HI.
  pose proof HI as [Hp Hwf Hact]. pose proof (pow2_size_bounds _ Hp) as Hb.
  pose proof (contents_length_le (table ht)) as Hcl.
  pose proof (wf_len _ _ Hwf) as Hlen.
  split; [|split; [|split]].
  - intros mem config ht0 Hc. apply ht_create_spec in Hc. tauto.
  - split; [|lia]. destruct Hp as (e & He & E). exists e. split; [lia|exact E].
  - intros k len v a.
    destruct (ht_insert ht k len v a) as [r ht'] eqn:Hrun.
    destruct (ht_insert_spec _ _ _ _ _ _ _ HI Hrun) as (_ & _ & [E|[E Hg]] & _);
      simpl; [left; exact E|right; split; [exact E|]].
    unfold grow_needed in Hg.
    rewrite u32_small in Hg by (change (2 ^ 32) with (2 ^ 30 * 4); lia).
    exact Hg.
  - intros k len a.
    destruct (ht_remove_cases ht k len a HI)
      as [E|[E|(j & ht2 & _ & _ & _ & _ & E & Hrem)]];
      rewrite E; eexists _, _; (split; [reflexivity|]);
      try (left; reflexivity).
    destruct Hrem as (_ & _ & Hsub & [Es|[Es Hs]] & _); [left; exact Es|].
    right. split; [exact Es|].
    apply submseteq_length in Hsub. rewrite length_cons in Hsub.
    unfold shrink_needed in Hs. cbn [active size min_load_factor set_active] in Hs.
    assert (Hsmall : 0 <= active ht - 1 < 2 ^ 32).
    { assert (H30 : 2 ^ 30 < 2 ^ 32) by reflexivity. unfold binding in *. lia. }
    rewrite (u32_small _ Hsmall) in Hs.
    apply andb_true_iff in Hs. destruct Hs as [Hs1 Hs2].
    split; [exact Hs1|apply Z.ltb_lt; exact Hs2].
Qed.

(** ** Allocation failure *)

(** C6.  When the allocation of the new slot array fails, [resize]
    returns [HT_MEM_ERROR] and the table is the one it was given, with the
    same capacity, count and slot array. *)
Theorem resize_alloc_failure ht new_size :
  validate_size (size ht) new_size = HT_SUCCESS ->
  resize ht new_size false = (HT_MEM_ERROR, ht).
Proof. intros Hv. unfold resize. rewrite Hv. reflexivity. Qed.

(** A failed allocation leaves the table alone whatever the size check
    says. *)
Lemma failed_alloc_keeps_table ht new_size :
  snd (resize ht new_size false) = ht.
Proof. unfold resize. destruct (validate_size (size ht) new_size); reflexivity. Qed.

(** The callers: an insertion that has to grow returns [HT_MEM_ERROR]
    with the table untouched, and a removal that cannot shrink keeps the
    table it has after the removal. *)
Lemma ht_insert_alloc_failure ht k len v :
  k <> NULL -> len <> 0 -> ht_search ht k len = NULL ->
  grow_needed ht = true ->
  validate_size (size ht) (u32 (Z.shiftl (size ht) 1)) = HT_SUCCESS ->
  ht_insert ht k len v false = (HT_MEM_ERROR, ht).
Proof.
  intros Hk Hlen Hs Hg Hv. unfold ht_insert, grow_check.
  destruct (Z.eqb_spec k NULL); [contradiction|].
  destruct (Z.eqb_spec len 0); [contradiction|].
  rewrite Hs, Hg, Hv. simpl. unfold resize. rewrite Hv. reflexivity.
Qed.

Lemma remove_table_update_alloc_failure ht :
  remove_table_update ht false = set_active ht (u32 (active ht - 1)).
Proof.
  unfold remove_table_update.
  destruct (shrink_needed _); [apply failed_alloc_keeps_table|reflexivity].
Qed.

(** ** The placement loop *)

(** C8.  On the table the grow step of an insertion hands over, when its
    count is below its capacity, the placement loop finds a free slot
    within [capacity] steps: [insert_entry] returns [HT_SUCCESS], never
    the [HT_FAILURE] of the exhausted loop. *)
Theorem insert_entry_finds_slot ht a ht1 hk k v :
  reachable ht ->
  grow_check ht a = (HT_SUCCESS, ht1) ->
  active ht1 < size ht1 ->
  fst (insert_entry ht1 hk k v) = HT_SUCCESS.
Proof.
  intros Hr Hg Hroom. pose proof (reachable_Inv _ Hr) as HI.
  destruct (grow_check_spec _ _ _ _ HI Hg) as [[Hp Hwf Hact] _].
  apply insert_entry_success; [exact Hp|apply (wf_len _ _ Hwf)|].
  rewrite <- Hact. exact Hroom.
Qed.

(** The count can reach the capacity all the same: with a load factor of
    1.0 the test [active + 1 > size * load_factor] is evaluated in
    binary32, where [2^24 + 1] rounds to [2^24], so a table of capacity
    [2^24] that is full does not ask to grow (one of capacity [2^23]
    does). *)
Lemma grow_needed_rounding :
  grow_needed (mkTab [] (2 ^ 24) (2 ^ 24) Demo.f_1 Demo.f_025
                     Demo.id_hash Demo.eq_cmp false false) = false /\
  grow_needed (mkTab [] (2 ^ 23) (2 ^ 23) Demo.f_1 Demo.f_025
                     Demo.id_hash Demo.eq_cmp false false) = true.
Proof. split; vm_compute; reflexivity. Qed.

(** ** Values that are [NULL] *)

Lemma validate_size_codes sz n :
  validate_size sz n = HT_SUCCESS \/ validate_size sz n = HT_FAILURE.
Proof. unfold validate_size. destruct (_ || _); [right|left]; reflexivity. Qed.

Lemma grow_check_codes ht a :
  fst (grow_check ht a) = HT_SUCCESS \/ fst (grow_check ht a) = HT_FAILURE \/
  fst (grow_check ht a) = HT_MEM_ERROR.
Proof.
  unfold grow_check. destruct (grow_needed ht); [|left; reflexivity].
  destruct (validate_size_codes (size ht) (u32 (Z.shiftl (size ht) 1))) as [E|E];
    rewrite E; [|right; left; reflexivity].
  unfold resize. rewrite E. destruct a; simpl; [left|right; right]; reflexivity.
Qed.


Lemma absent_search_null ht k len :
  pow2_size (size ht) -> ~ present ht k len -> ht_search ht k len = NULL.
Proof.
  intros Hp Hab. destruct (ht_search_sound ht k len Hp) as [E|(j & Hj & Hm & _)];
    [exact E|].
  exfalso. apply Hab. exists j. split; assumption.
Qed.


(** * Concrete runs *)

Import Demo.

Lemma eq_cmp_sym x y : eq_cmp x y = 0 -> eq_cmp y x = 0.
Proof.
  unfold eq_cmp. destruct (Z.eqb_spec x y), (Z.eqb_spec y x); congruence.
Qed.

Lemma eq_cmp_trans x y z : eq_cmp x y = 0 -> eq_cmp y z = 0 -> eq_cmp x z = 0.
Proof.
  unfold eq_cmp.
  destruct (Z.eqb_spec x y), (Z.eqb_spec y z), (Z.eqb_spec x z); congruence.
Qed.

Lemma table_after_reachable lf min_lf ops :
  run_from lf min_lf ops <> None -> reachable (table_after lf min_lf ops).
Proof.
  unfold table_after, run_from, create. intros H.
  destruct (ht_create no_mem (config lf min_lf) true true) as [ht0|] eqn:Hc;
    [|contradiction].
  destruct (run ht0 ops) as [ht|] eqn:Hrun; [|contradiction].
  exists no_mem, (config lf min_lf), ht0, ops. split; assumption.
Qed.

Lemma insert_search_roundtrip_witness :
  ht_search (snd (ht_insert (table_after f_075 f_025 ops_a) 5 4 500 true)) 5 4
  = 500.
Proof.
  apply (insert_search_roundtrip no_mem (config f_075 f_025)
           (get (create f_075 f_025)) ops_a
           (table_after f_075 f_025 ops_a) 5 4 500 true).
  - vm_compute. reflexivity.
  - repeat constructor; intros H; vm_compute in H; discriminate H.
  - reflexivity.
  - vm_compute. reflexivity.
  - vm_compute. reflexivity.
Defined.

(** Key 5 stored with a [NULL] value, key 1 with a value: key 1 inserted
    again. *)
Lemma insert_valued_key_exists_witness :
  ht_insert (table_after f_075 f_025 ops_d) 1 4 200 true
  = (HT_KEY_EXISTS, table_after f_075 f_025 ops_d).
Proof.
  apply (insert_valued_key_exists (table_after f_075 f_025 ops_d) 1 4 200 true).
  - apply table_after_reachable. vm_compute. discriminate.
  - discriminate.
  - discriminate.
  - exists 2. split; [vm_compute; split; [discriminate|reflexivity]|].
    split; [intros H; vm_compute in H; discriminate H|].
    split; vm_compute; reflexivity.
  - intros j Hj Hm. change (size (table_after f_075 f_025 ops_d)) with 4 in Hj.
    assert (Hc : j = 0 \/ j = 1 \/ j = 2 \/ j = 3) by lia.
    destruct Hm as (Ho & Eh & _).
    destruct Hc as [-> | [-> | [-> | ->]]];
      first [ intros H; vm_compute in H; discriminate H
            | exfalso; vm_compute in Eh; discriminate Eh
            | exfalso; apply Ho; vm_compute; reflexivity ].
Defined.

(** C2, at the failing input.  Key 1 inserted with a [NULL] value is
    present (slot 1 holds it), yet [ht_search] returns [NULL] for it and
    the duplicate guard of [ht_insert] does not fire: a second insertion
    of key 1 returns [HT_SUCCESS], not [HT_KEY_EXISTS], and changes the
    table, which then holds key 1 in two slots with a count of 2.  The
    same two insertions with a first value that is not [NULL] give
    [HT_KEY_EXISTS] and the table unchanged. *)
Theorem insert_misses_null_valued_key :
  reachable (table_after f_075 f_025 [OpInsert 1 4 NULL true]) /\
  present (table_after f_075 f_025 [OpInsert 1 4 NULL true]) 1 4 /\
  ht_search (table_after f_075 f_025 [OpInsert 1 4 NULL true]) 1 4 = NULL /\
  ht_insert (table_after f_075 f_025 [OpInsert 1 4 NULL true]) 1 4 200 true
  <> (HT_KEY_EXISTS, table_after f_075 f_025 [OpInsert 1 4 NULL true]) /\
  fst (ht_insert (table_after f_075 f_025 [OpInsert 1 4 NULL true]) 1 4 200 true)
  = HT_SUCCESS /\
  dump (snd (ht_insert (table_after f_075 f_025 [OpInsert 1 4 NULL true])
                       1 4 200 true))
  = (4, 2, [(1, 1, 0, 1, 0); (2, 1, 1, 1, 200)]) /\
  ht_insert (table_after f_075 f_025 [OpInsert 1 4 100 true]) 1 4 200 true
  = (HT_KEY_EXISTS, table_after f_075 f_025 [OpInsert 1 4 100 true]).
Proof.
  split; [apply table_after_reachable; vm_compute; discriminate|].
  split.
  { exists 1. split; [vm_compute; split; [discriminate|reflexivity]|].
    split; [intros H; vm_compute in H; discriminate H|].
    split; vm_compute; reflexivity. }
  split; [vm_compute; reflexivity|].
  split; [intros H; apply (f_equal fst) in H; vm_compute in H; discriminate H|].
  repeat split; vm_compute; reflexivity.
Qed.

(** Key 5 stored with a [NULL] value, key 1 with a value: key 1
    removed. *)
Lemma remove_stored_once_then_absent_witness :
  exists ht1,
    ht_remove (table_after f_075 f_025 ops_d) 1 4 true = Some (HT_SUCCESS, ht1) /\
    stored_count ht1 1 4 = O /\
    ht_search ht1 1 4 = NULL /\
    ht_remove ht1 1 4 true = Some (HT_KEY_NOT_FOUND, ht1).
Proof.
  apply (remove_stored_once_then_absent (table_after f_075 f_025 ops_d)
           1 4 true true).
  - apply table_after_reachable. vm_compute. discriminate.
  - discriminate.
  - discriminate.
  - vm_compute. reflexivity.
Defined.

(** C3, at the failing input.  Key 1 inserted with a [NULL] value and
    again with a value (the second insertion is accepted, as [ht_insert]
    does not see the first): two slots hold key 1.  The removal of key 1
    returns [HT_SUCCESS] and takes one of them out; afterwards the search
    of key 1 still returns a value, not [NULL], and a second removal
    returns [HT_SUCCESS] again, not [HT_KEY_NOT_FOUND]. *)
Theorem remove_leaves_duplicate_key :
  reachable (table_after f_075 f_025
               [OpInsert 1 4 NULL true; OpInsert 1 4 200 true]) /\
  present (table_after f_075 f_025
             [OpInsert 1 4 NULL true; OpInsert 1 4 200 true]) 1 4 /\
  stored_count (table_after f_075 f_025
                  [OpInsert 1 4 NULL true; OpInsert 1 4 200 true]) 1 4 = 2%nat /\
  exists ht1,
    ht_remove (table_after f_075 f_025
                 [OpInsert 1 4 NULL true; OpInsert 1 4 200 true]) 1 4 true
    = Some (HT_SUCCESS, ht1) /\
    dump ht1 = (4, 1, [(1, 1, 0, 1, 200)]) /\
    ht_search ht1 1 4 = 200 /\
    option_map fst (ht_remove ht1 1 4 true) = Some HT_SUCCESS.
Proof.
  split; [apply table_after_reachable; vm_compute; discriminate|].
  split.
  { exists 1. split; [vm_compute; split; [discriminate|reflexivity]|].
    split; [intros H; vm_compute in H; discriminate H|].
    split; vm_compute; reflexivity. }
  split; [vm_compute; reflexivity|].
  eexists. split; [vm_compute; reflexivity|].
  repeat split; vm_compute; reflexivity.
Qed.

Lemma ops_b_dump :
  dump (table_after f_075 f_025 ops_b)
  = (4, 2, [(1, 1, 0, 1, 100); (2, 2, 0, 2, 200)]).
Proof. vm_compute. reflexivity. Qed.

Lemma robin_hood_invariant_witness :
  (exists j, 0 <= j < size (table_after f_075 f_025 ops_b) /\
     matches (table_after f_075 f_025 ops_b)
       (call_hash (table_after f_075 f_025 ops_b) 2 4) 2
       (slot (table (table_after f_075 f_025 ops_b)) j) /\
     ht_search (table_after f_075 f_025 ops_b) 2 4
     = value (slot (table (table_after f_075 f_025 ops_b)) j)) /\
  (forall a, exists ht',
     ht_remove (table_after f_075 f_025 ops_b) 2 4 a = Some (HT_SUCCESS, ht')).
Proof.
  apply (proj2 (robin_hood_invariant (table_after f_075 f_025 ops_b) 2 4
                  (table_after_reachable f_075 f_025 ops_b
                     ltac:(vm_compute; discriminate)))).
  - discriminate.
  - discriminate.
  - exists 2. split; [vm_compute; split; [discriminate|reflexivity]|].
    split; [intros H; vm_compute in H; discriminate H|].
    split; vm_compute; reflexivity.
Defined.

(** Key 1 sits at step 0 of its probe sequence; the slot at step 1 is
    occupied by key 2 with [psl = 0 < 1], and key 1 is present all the
    same. *)
Lemma early_stop_literal_counterexample :
  reachable (table_after f_075 f_025 ops_b) /\
  occupied (slot (table (table_after f_075 f_025 ops_b))
              (probe_func (call_hash (table_after f_075 f_025 ops_b) 1 4) 1
                          (size (table_after f_075 f_025 ops_b)))) /\
  psl (slot (table (table_after f_075 f_025 ops_b))
         (probe_func (call_hash (table_after f_075 f_025 ops_b) 1 4) 1
                     (size (table_after f_075 f_025 ops_b)))) < 1 /\
  present (table_after f_075 f_025 ops_b) 1 4 /\
  ht_search (table_after f_075 f_025 ops_b) 1 4 = 100.
Proof.
  split; [apply table_after_reachable; vm_compute; discriminate|].
  split; [intros H; vm_compute in H; discriminate H|].
  split; [vm_compute; reflexivity|].
  split; [|vm_compute; reflexivity].
  exists 1. split; [vm_compute; split; [discriminate|reflexivity]|].
  split; [intros H; vm_compute in H; discriminate H|].
  split; vm_compute; reflexivity.
Qed.

Lemma capacity_invariants_witness :
  (exists e, 1 <= e /\ size (table_after f_075 f_025 ops_b) = 2 ^ e) /\
  2 <= size (table_after f_075 f_025 ops_b).
Proof.
  exact (proj1 (proj2 (capacity_invariants (table_after f_075 f_025 ops_b)
                         (table_after_reachable f_075 f_025 ops_b
                            ltac:(vm_compute; discriminate))))).
Defined.

Lemma resize_alloc_failure_witness :
  resize (table_after f_075 f_025 ops_b) 8 false
  = (HT_MEM_ERROR, table_after f_075 f_025 ops_b).
Proof.
  apply (resize_alloc_failure (table_after f_075 f_025 ops_b) 8).
  vm_compute. reflexivity.
Defined.

Lemma insert_entry_finds_slot_witness :
  fst (insert_entry (table_after f_075 f_025 ops_b) 5 5 500) = HT_SUCCESS.
Proof.
  apply (insert_entry_finds_slot (table_after f_075 f_025 ops_b) true
           (table_after f_075 f_025 ops_b) 5 5 500).
  - apply table_after_reachable. vm_compute. discriminate.
  - vm_compute. reflexivity.
  - vm_compute. reflexivity.
Defined.



(** ** Resize transparency *)

(** [rehash_entries] places the occupied slots of the old array one by
    one, in index order, with [insert_entry]. *)
Lemma rehash_entries_in_order ht old :
  rehash_entries ht old
  = fold_left (fun h e =>
                 if key e =? NULL then h
                 else snd (insert_entry h (hash_key e) (key e) (value e)))
              old ht.
Proof.
  revert ht. induction old as [|e old IH]; intros ht; simpl; [reflexivity|].
  destruct (key e =? NULL); apply IH.
Qed.

(** A resize to a capacity that has room for the stored bindings keeps
    them all; a grow always has room. *)
Lemma resize_keeps_bindings ht new_size ht' :
  reachable ht -> pow2_size new_size -> active ht <= new_size ->
  resize ht new_size true = (HT_SUCCESS, ht') ->
  size ht' = new_size /\ contents (table ht') ≡ₚ contents (table ht) /\
  active ht' = active ht.
Proof.
  intros Hr Hp Hfit Hrun. pose proof (reachable_Inv _ Hr) as HI.
  destruct (resize_spec _ _ _ _ _ HI Hp Hrun)
    as (HI' & _ & _ & [(_ & _ & Hsz & Hperm)|(E & _)]); [|discriminate].
  rewrite (inv_active _ HI) in Hfit. specialize (Hperm Hfit).
  split; [exact Hsz|]. split; [exact Hperm|].
  rewrite (inv_active _ HI'), (inv_active _ HI), Hperm. reflexivity.
Qed.

(** C7, at the failing input.  With load factors 1.0 and 0.875, keys 1
    to 4 fill a table of capacity 4; the removal of key 1 leaves three
    bindings and calls [resize] for capacity 2 (the table it calls it on
    is the one a removal with a failing allocation returns).  That
    resize returns [HT_SUCCESS] and drops the binding of key 4, and so
    does the removal that reaches it. *)
Theorem resize_shrink_drops_binding :
  reachable (table_after f_1 f_0875 (ops_c ++ [OpRemove 1 4 false])) /\
  dump (table_after f_1 f_0875 (ops_c ++ [OpRemove 1 4 false]))
  = (4, 3, [(0, 4, 0, 4, 400); (2, 2, 0, 2, 200); (3, 3, 0, 3, 300)]) /\
  ht_search (table_after f_1 f_0875 (ops_c ++ [OpRemove 1 4 false])) 4 4 = 400 /\
  fst (resize (table_after f_1 f_0875 (ops_c ++ [OpRemove 1 4 false])) 2 true)
  = HT_SUCCESS /\
  dump (snd (resize (table_after f_1 f_0875 (ops_c ++ [OpRemove 1 4 false]))
                    2 true))
  = (2, 2, [(0, 3, 1, 3, 300); (1, 2, 1, 2, 200)]) /\
  ht_search (snd (resize (table_after f_1 f_0875 (ops_c ++ [OpRemove 1 4 false]))
                         2 true)) 4 4 = NULL /\
  dump (table_after f_1 f_0875 (ops_c ++ [OpRemove 1 4 true]))
  = (2, 2, [(0, 3, 1, 3, 300); (1, 2, 1, 2, 200)]).
Proof.
  split; [apply table_after_reachable; vm_compute; discriminate|].
  repeat split; vm_compute; reflexivity.
Qed.

(** ** Load-factor validation *)

Lemma SFcompare_antisym x y :
  SFcompare y x = option_map CompOpp (SFcompare x y).
Proof.
  destruct x as [sx|sx| |sx mx ex], y as [sy|sy| |sy my ey]; simpl;
    try destruct sx; try destruct sy; try reflexivity;
    rewrite (Z.compare_antisym ex ey); destruct (ex ?= ey); simpl;
    try reflexivity;
    rewrite (Pos.compare_cont_antisym mx my Eq); simpl;
    rewrite ?CompOpp_involutive; reflexivity.
Qed.

Lemma f32_le_not_gt x y :
  x <> S754_nan -> y <> S754_nan -> f32_le x y = negb (f32_gt x y).
Proof.
  intros Hx Hy. unfold f32_le, f32_gt, SFleb, SFltb.
  rewrite (SFcompare_antisym x y).
  destruct x, y; try contradiction; simpl;
    match goal with
    | |- context [match ?c with _ => _ end] => destruct c; reflexivity
    | _ => reflexivity
    end.
Qed.

(** Away from NaN, [validate_load_factors] accepts exactly the load
    factors with [0 < load_factor <= 1] and
    [0 <= min_load_factor < load_factor]. *)
Lemma validate_load_factors_spec lf min_lf :
  lf <> S754_nan -> min_lf <> S754_nan ->
  validate_load_factors lf min_lf = HT_SUCCESS <->
  f32_lt (f32_of_Z 0) lf = true /\ f32_le lf (f32_of_Z 1) = true /\
  f32_le (f32_of_Z 0) min_lf = true /\ f32_lt min_lf lf = true.
Proof.
  intros Hlf Hmin. unfold validate_load_factors.
  assert (H0 : f32_of_Z 0 <> S754_nan) by (vm_compute; discriminate).
  assert (H1 : f32_of_Z 1 <> S754_nan) by (vm_compute; discriminate).
  rewrite (f32_le_not_gt lf (f32_of_Z 0) Hlf H0).
  rewrite (f32_le_not_gt lf (f32_of_Z 1) Hlf H1).
  rewrite (f32_le_not_gt (f32_of_Z 0) min_lf H0 Hmin).
  change (f32_ge min_lf lf) with (f32_le lf min_lf).
  rewrite (f32_le_not_gt lf min_lf Hlf Hmin).
  unfold f32_gt, f32_lt.
  destruct (SFltb (f32_of_Z 0) lf), (SFltb (f32_of_Z 1) lf),
    (SFltb min_lf (f32_of_Z 0)), (SFltb min_lf lf); simpl;
    split; try discriminate; try tauto; intros (?&?&?&?); discriminate.
Qed.

(** C9, at the failing input.  A NaN load factor is outside (0, 1], yet
    [validate_load_factors] accepts it (every comparison with NaN is
    false) and [ht_create] returns a table; that table never grows, so
    the third insertion fails and drops a stored key. *)
Theorem nan_load_factor_accepted :
  validate_load_factors S754_nan f_025 = HT_SUCCESS /\
  option_map dump (ht_create no_mem (config S754_nan f_025) true true)
  = Some (2, 0, []) /\
  dump (table_after S754_nan f_025 ops_b)
  = (2, 2, [(0, 2, 0, 2, 200); (1, 1, 0, 1, 100)]) /\
  fst (ht_insert (table_after S754_nan f_025 ops_b) 3 4 300 true) = HT_FAILURE /\
  dump (snd (ht_insert (table_after S754_nan f_025 ops_b) 3 4 300 true))
  = (2, 2, [(0, 3, 1, 3, 300); (1, 1, 0, 1, 100)]).
Proof. repeat split; vm_compute; reflexivity. Qed.

(** * Further properties of the table *)

(** ** The probe sequence *)

(** X1.  For a capacity [m = 2^e] the table can have, [probe_func] stays
    below [m], and the first [m] steps of the probe sequence of any hash
    visit every slot exactly once. *)
Theorem probe_func_covers k e m :
  1 <= e <= 30 -> m = 2 ^ e ->
  (forall i, 0 <= probe_func k i m < m) /\
  (forall j, 0 <= j < m ->
     exists i, 0 <= i < m /\ probe_func k i m = j /\
               forall i', 0 <= i' < m -> probe_func k i' m = j -> i' = i).
Proof.
  intros He Hm.
  assert (Hp : pow2_size m) by (exists e; split; assumption).
  pose proof (pow2_size_bounds _ Hp) as Hb.
  split; [intros i; apply probe_func_range; exact Hp|].
  intros j Hj. exists ((j - k) mod m).
  assert (Hi : 0 <= (j - k) mod m < m) by (apply Z.mod_pos_bound; lia).
  split; [exact Hi|]. split.
  - rewrite probe_func_mod by exact Hp. rewrite Zplus_mod_idemp_r.
    replace (k + (j - k)) with j by lia. apply Z.mod_small. exact Hj.
  - intros i' Hi' Hpr. rewrite probe_func_mod in Hpr by exact Hp.
    assert (Hj' : (k + (j - k) mod m) mod m = j).
    { rewrite Zplus_mod_idemp_r. replace (k + (j - k)) with j by lia.
      apply Z.mod_small. exact Hj. }
    rewrite <- Hj' in Hpr. apply Z.cong_iff_ex in Hpr. destruct Hpr as (n & Hn).
    assert (n = 0) by nia. subst n. lia.
Qed.

(** ** Counters and stored probe lengths *)

(** X2.  On every reachable table the slot array has [size] slots, and
    [active] is the number of slots whose key is not [NULL]; so it lies
    between 0 and the capacity. *)
Theorem active_counts_occupied ht :
  reachable ht ->
  Z.of_nat (length (table ht)) = size ht /\
  active ht = Z.of_nat (length (contents (table ht))) /\
  0 <= active ht <= size ht.
Proof.
  intros Hr. destruct (reachable_Inv _ Hr) as [Hp Hwf Hact].
  pose proof (wf_len _ _ Hwf) as Hlen.
  pose proof (contents_length_le (table ht)) as Hle.
  split; [exact Hlen|]. split; [exact Hact|]. lia.
Qed.

(** X3.  On every reachable table the probe length stored in an occupied
    slot is the step at which the probe sequence of its cached hash
    reaches the slot, and it is below the capacity. *)
Theorem stored_psl_is_distance ht j :
  reachable ht -> 0 <= j < size ht -> key (slot (table ht) j) <> NULL ->
  0 <= psl (slot (table ht) j) < size ht /\
  probe_func (hash_key (slot (table ht) j)) (psl (slot (table ht) j)) (size ht)
  = j.
Proof.
  intros Hr Hj Hocc. destruct (reachable_Inv _ Hr) as [Hp Hwf _].
  destruct (wf_home _ _ Hwf j Hj Hocc) as [Hpsl Hhome].
  split; [exact Hpsl|]. rewrite probe_func_mod by exact Hp. exact Hhome.
Qed.

(** ** Lookups and the stored bindings *)

Lemma present_dec ht k len : present ht k len \/ ~ present ht k len.
Proof.
  assert (Hgen : forall n : nat,
            (exists j, 0 <= j < Z.of_nat n /\
               matches ht (call_hash ht k len) k (slot (table ht) j)) \/
            (forall j, 0 <= j < Z.of_nat n ->
               ~ matches ht (call_hash ht k len) k (slot (table ht) j))).
  { induction n as [|n [(j & Hj & Hm)|Hno]].
    - right. intros j Hj. lia.
    - left. exists j. split; [lia|exact Hm].
    - destruct (matches_dec ht (call_hash ht k len) k
                  (slot (table ht) (Z.of_nat n))) as [Hm|Hm].
      + left. exists (Z.of_nat n). split; [lia|exact Hm].
      + right. intros j Hj. destruct (Z.eq_dec j (Z.of_nat n)) as [->|];
          [exact Hm|apply Hno; lia]. }
  destruct (Z_lt_le_dec (size ht) 0) as [Hneg|Hpos].
  - right. intros (j & Hj & _). lia.
  - specialize (Hgen (Z.to_nat (size ht))). rewrite Z2Nat.id in Hgen by lia.
    destruct Hgen as [H|H]; [left; exact H|right].
    intros (j & Hj & Hm). exact (H j Hj Hm).
Qed.

(** A key is present when a stored binding has its hash and compares
    equal to it. *)
Lemma present_iff_binding ht k len :
  Inv ht ->
  present ht k len <->
  exists k0 v, (call_hash ht k len, k0, v) ∈ contents (table ht) /\
               cmp_func ht k0 k = 0.
Proof.
  intros HI. pose proof (wf_len _ _ (inv_wf _ HI)) as Hl. split.
  - intros (j & Hj & Ho & Eh & Ec).
    exists (key (slot (table ht) j)), (value (slot (table ht) j)).
    split; [|exact Ec]. rewrite <- Eh. apply contents_elem; [lia|exact Ho].
  - intros (k0 & v & Hin & Ec). apply binding_slot in Hin.
    destruct Hin as (j & Hj & Ho & E1 & E2 & E3).
    exists j. split; [lia|]. split; [exact Ho|]. rewrite E1, E2. tauto.
Qed.




(** What a table of a caller who stores non-null values has: the
    invariant, non-null stored values and pairwise different keys. *)
Lemma reachable_nonnull_facts ht :
  reachable_nonnull ht -> consistent_cmp (cmp_func ht) ->
  reachable ht /\ Inv ht /\
  Forall value_nonnull (contents (table ht)) /\
  uniq (cmp_func ht) (contents (table ht)).
Proof.
  intros (mem & config & ht0 & ops & Hc & Hops & Hrun) [Hsym Htrans].
  assert (Hr : reachable ht) by (exists mem, config, ht0, ops; tauto).
  apply ht_create_spec in Hc. destruct Hc as (HI0 & _ & _ & Hc0 & _).
  pose proof (run_same_config _ _ _ HI0 Hrun) as Hcfg.
  assert (Hcmp : cmp_func ht = cmp_func ht0) by apply Hcfg.
  rewrite Hcmp in Hsym |- *.
  destruct (run_uniq ops ht0 ht HI0 Hsym Hops) as [Hnn Hu]; try exact Hrun;
    try (rewrite Hc0; simpl; constructor).
  split; [exact Hr|]. split; [exact (reachable_Inv _ Hr)|]. split; assumption.
Qed.


(** X4.  On a table of a caller who stores non-null values, the search of
    a valid key returns a non-null pointer exactly when the key is
    present, and what it returns is the value stored in a slot that
    holds the key. *)
Theorem ht_search_hit_iff_present ht k len :
  reachable_nonnull ht -> k <> NULL -> len <> 0 ->
  (ht_search ht k len <> NULL <-> present ht k len) /\
  (ht_search ht k len <> NULL ->
   exists j, 0 <= j < size ht /\
     matches ht (call_hash ht k len) k (slot (table ht) j) /\
     ht_search ht k len = value (slot (table ht) j)).
Proof.
  intros (mem & config & ht0 & ops & Hc & Hops & Hrun) Hk Hlen.
  apply ht_create_spec in Hc. destruct Hc as (HI0 & _ & _ & Hc0 & _).
  pose proof (run_Inv _ _ _ HI0 Hrun) as HI.
  assert (Hnn : Forall value_nonnull (contents (table ht))).
  { apply (run_bindings _ ops ht0 ht HI0); [|rewrite Hc0; constructor|exact Hrun].
    eapply Forall_impl; [exact Hops|]. intros [? ? ? ?|? ? ?] Hv; simpl in *;
      [intros hk; exact Hv|exact I]. }
  assert (Hsound : ht_search ht k len <> NULL ->
            exists j, 0 <= j < size ht /\
              matches ht (call_hash ht k len) k (slot (table ht) j) /\
              ht_search ht k len = value (slot (table ht) j)).
  { intros Hne. destruct (ht_search_sound ht k len (inv_pow2 _ HI)) as [E|H];
      [contradiction|exact H]. }
  split; [|exact Hsound]. split.
  - intros Hne. destruct (Hsound Hne) as (j & Hj & Hm & _). exists j. tauto.
  - intros (j & Hj & Hm) E.
    exact (ht_search_null_absent ht k len HI Hnn Hk Hlen E j Hj Hm).
Qed.

(** ** Missing keys and rejected insertions *)

Lemma remove_loop_calls_absent n : forall ht hk k i,
  pow2_size (size ht) ->
  (forall j, 0 <= j < size ht -> ~ matches ht hk k (slot (table ht) j)) ->
  remove_loop_calls ht hk k n i = [].
Proof.
  induction n as [|n IH]; intros ht hk k i Hp Hno; simpl; [reflexivity|].
  destruct (Z.eqb_spec (key (slot (table ht) (probe_func hk i (size ht)))) NULL)
    as [|Hocc]; [reflexivity|].
  destruct ((hash_key _ =? hk) && _) eqn:Ht.
  - exfalso. apply (Hno (probe_func hk i (size ht))).
    + apply probe_func_range. exact Hp.
    + apply matches_test; assumption.
  - destruct (psl _ <? i); [reflexivity|]. apply IH; assumption.
Qed.

(** X5.  On every reachable table, for a valid key that no slot holds:
    the search returns [NULL], the removal returns [HT_KEY_NOT_FOUND] and
    leaves the table as it is, and no destructor is called. *)
Theorem missing_key_behaviour ht k len a :
  reachable ht -> k <> NULL -> len <> 0 -> ~ present ht k len ->
  ht_search ht k len = NULL /\
  ht_remove ht k len a = Some (HT_KEY_NOT_FOUND, ht) /\
  ht_remove_calls ht k len = [].
Proof.
  intros Hr Hk Hlen Hab. destruct (reachable_Inv _ Hr) as [Hp _ _].
  assert (Hno : forall j, 0 <= j < size ht ->
            ~ matches ht (call_hash ht k len) k (slot (table ht) j)).
  { intros j Hj Hm. apply Hab. exists j. tauto. }
  split; [apply absent_search_null; assumption|]. split.
  - apply ht_remove_absent; assumption.
  - unfold ht_remove_calls.
    destruct (Z.eqb_spec k NULL); [contradiction|].
    destruct (Z.eqb_spec len 0); [contradiction|].
    apply remove_loop_calls_absent; assumption.
Qed.

Lemma grow_check_failure ht a :
  fst (grow_check ht a) <> HT_SUCCESS -> snd (grow_check ht a) = ht.
Proof.
  unfold grow_check. destruct (grow_needed ht); [|intros H; contradiction H; reflexivity].
  destruct (validate_size_codes (size ht) (u32 (Z.shiftl (size ht) 1))) as [E|E];
    rewrite E; [|reflexivity].
  unfold resize. rewrite E. destruct a; simpl; [|reflexivity].
  intros H. contradiction H. reflexivity.
Qed.

(** X6.  The codes of [ht_insert] on any table: [HT_INVALID_ARG] exactly
    for a [NULL] key or a zero length; [HT_KEY_EXISTS] exactly for a valid
    key whose search returns a value; never [HT_NO_SPACE],
    [HT_KEY_NOT_FOUND] or [HT_INVALID_STATE]; and an insertion that
    returns [HT_INVALID_ARG], [HT_KEY_EXISTS] or [HT_MEM_ERROR] leaves
    the table as it is. *)
Theorem ht_insert_rejections ht k len v a :
  (fst (ht_insert ht k len v a) = HT_INVALID_ARG <-> k = NULL \/ len = 0) /\
  (fst (ht_insert ht k len v a) = HT_KEY_EXISTS <->
   k <> NULL /\ len <> 0 /\ ht_search ht k len <> NULL) /\
  (fst (ht_insert ht k len v a) <> HT_NO_SPACE /\
   fst (ht_insert ht k len v a) <> HT_KEY_NOT_FOUND /\
   fst (ht_insert ht k len v a) <> HT_INVALID_STATE) /\
  (fst (ht_insert ht k len v a) = HT_INVALID_ARG \/
   fst (ht_insert ht k len v a) = HT_KEY_EXISTS \/
   fst (ht_insert ht k len v a) = HT_MEM_ERROR ->
   snd (ht_insert ht k len v a) = ht).
Proof.
  unfold ht_insert.
  destruct (Z.eqb_spec k NULL) as [Hk|Hk].
  { simpl. repeat split; try discriminate; tauto. }
  destruct (Z.eqb_spec len 0) as [Hl|Hl].
  { simpl. repeat split; try discriminate; tauto. }
  destruct (Z.eqb_spec (ht_search ht k len) NULL) as [Hs|Hs]; simpl.
  2: { repeat split; try discriminate; tauto. }
  pose proof (grow_check_codes ht a) as Hg.
  pose proof (grow_check_failure ht a) as Hf.
  destruct (grow_check ht a) as [r ht1]. simpl in Hg, Hf.
  destruct Hg as [-> | [-> | ->]]; simpl.
  - unfold insert_entry.
    destruct (insert_loop_result (Z.to_nat (size ht1)) ht1 (call_hash ht1 k len)
                (mkEntry (call_hash ht1 k len) 0 k v) 0) as [E|E];
      rewrite E; repeat split; try discriminate; try tauto;
      intros [H|[H|H]]; discriminate H.
  - repeat split; try discriminate; try tauto.
    intros [H|[H|H]]; discriminate H.
  - repeat split; try discriminate; try tauto.
    intros _. apply Hf. discriminate.
Qed.

(** ** Lookups of the other keys *)





(** ** Insertion followed by removal; the count *)


(** X11.  The count follows the operations: on every reachable table a
    successful insertion adds exactly one to [active], and a successful
    removal takes at least one from it, exactly one when it keeps the
    capacity or the entries that remain fit in the halved capacity. *)
Theorem active_follows_operations ht :
  reachable ht ->
  (forall k len v a ht',
     ht_insert ht k len v a = (HT_SUCCESS, ht') -> active ht' = active ht + 1) /\
  (forall k len a ht',
     ht_remove ht k len a = Some (HT_SUCCESS, ht') ->
     active ht' <= active ht - 1 /\
     (size ht' = size ht \/ active ht - 1 <= size ht / 2 ->
      active ht' = active ht - 1)).
Proof.
  intros Hr. pose proof (reachable_Inv _ Hr) as HI. split.
  - intros k len v a ht' Hins.
    destruct (ht_insert_spec _ _ _ _ _ _ _ HI Hins) as (HI' & _ & _ & _ & Hok & _).
    destruct (Hok eq_refl) as (_ & _ & _ & Hperm).
    rewrite (inv_active _ HI'), (inv_active _ HI), Hperm, length_cons. lia.
  - intros k len a ht' Hrem.
    destruct (ht_remove_cases ht k len a HI)
      as [E|[E|(j & ht2 & _ & _ & _ & _ & E & Hrm)]];
      rewrite E in Hrem; try discriminate.
    injection Hrem as ->. destruct Hrm as (HI' & _ & Hsub & _ & Heq).
    rewrite (inv_active _ HI'), (inv_active _ HI). split.
    + apply submseteq_length in Hsub. rewrite length_cons in Hsub.
      unfold binding in *. lia.
    + intros Hroom. rewrite <- (Heq Hroom), length_cons. lia.
Qed.

(** ** Destructor calls *)

Lemma free_entry_calls_binding ht e :
  free_entry_calls ht e
  = binding_calls (free_key ht) (free_val ht) (hash_key e, key e, value e).
Proof. reflexivity. Qed.

Lemma destroy_loop_contents ht (l : list HTentry) : forall n i,
  0 <= i -> drop (Z.to_nat i) (table ht) = l -> n = length l ->
  destroy_loop ht n i
  = concat (binding_calls (free_key ht) (free_val ht) <$> contents l).
Proof.
  induction l as [|e l IH]; intros n i Hi Hdrop ->; [reflexivity|].
  assert (Hlook : table ht !! Z.to_nat i = Some e).
  { pose proof (lookup_drop (table ht) (Z.to_nat i) 0) as H.
    rewrite Hdrop, Nat.add_0_r in H. symmetry. exact H. }
  assert (Hslot : slot (table ht) i = e)
    by (unfold slot; apply list_lookup_total_correct; exact Hlook).
  rewrite (drop_S _ _ _ Hlook) in Hdrop. injection Hdrop as Hdrop.
  cbn [length destroy_loop]. rewrite Hslot, contents_cons.
  rewrite (IH (length l) (i + 1)); [|lia| |reflexivity].
  - unfold binding_of. destruct (key e =? NULL); reflexivity.
  - replace (Z.to_nat (i + 1)) with (S (Z.to_nat i)) by lia. exact Hdrop.
Qed.

Lemma ht_destroy_contents ht :
  Z.of_nat (length (table ht)) = size ht ->
  ht_destroy ht
  = concat (binding_calls (free_key ht) (free_val ht) <$> contents (table ht)).
Proof.
  intros Hlen. unfold ht_destroy.
  apply destroy_loop_contents; [lia|reflexivity|lia].
Qed.

Lemma freed_keys_app a b : freed_keys (a ++ b) = freed_keys a ++ freed_keys b.
Proof. unfold freed_keys. apply omap_app. Qed.

Lemma freed_values_app a b :
  freed_values (a ++ b) = freed_values a ++ freed_values b.
Proof. unfold freed_values. apply omap_app. Qed.

Lemma freed_keys_calls fk fv (l : list binding) :
  freed_keys (concat (binding_calls fk fv <$> l))
  = if fk then (fun b : binding => snd (fst b)) <$> l else [].
Proof.
  induction l as [|b l IH].
  - destruct fk; reflexivity.
  - change (concat (binding_calls fk fv <$> b :: l))
      with (binding_calls fk fv b ++ concat (binding_calls fk fv <$> l)).
    rewrite freed_keys_app, IH. unfold binding_calls.
    destruct fk, fv; reflexivity.
Qed.

Lemma freed_values_calls fk fv (l : list binding) :
  freed_values (concat (binding_calls fk fv <$> l))
  = if fv then (fun b : binding => snd b) <$> l else [].
Proof.
  induction l as [|b l IH].
  - destruct fv; reflexivity.
  - change (concat (binding_calls fk fv <$> b :: l))
      with (binding_calls fk fv b ++ concat (binding_calls fk fv <$> l)).
    rewrite freed_values_app, IH. unfold binding_calls.
    destruct fk, fv; reflexivity.
Qed.

(** X12.  On every reachable table [ht_destroy] hands to [free_key] the
    key of every stored binding, once each and in slot order, and to
    [free_val] the value of every stored binding; a destructor that is
    not configured is not called. *)
Theorem ht_destroy_frees_stored ht :
  reachable ht ->
  freed_keys (ht_destroy ht)
  = (if free_key ht
     then (fun b : binding => snd (fst b)) <$> contents (table ht) else []) /\
  freed_values (ht_destroy ht)
  = (if free_val ht
     then (fun b : binding => snd b) <$> contents (table ht) else []).
Proof.
  intros Hr. destruct (reachable_Inv _ Hr) as [_ Hwf _].
  rewrite (ht_destroy_contents ht (wf_len _ _ Hwf)).
  split; [apply freed_keys_calls|apply freed_values_calls].
Qed.

Lemma remove_loop_found_calls n : forall ht hk k a i j,
  Inv ht -> Z.of_nat n = size ht - i -> 0 <= i ->
  0 <= j < size ht -> matches ht hk k (slot (table ht) j) ->
  i <= psl (slot (table ht) j) ->
  exists j' ht',
    0 <= j' < size ht /\ matches ht hk k (slot (table ht) j') /\
    remove_loop ht hk k a n i = Some (HT_SUCCESS, ht') /\
    removed ht j' ht' /\
    remove_loop_calls ht hk k n i = free_entry_calls ht (slot (table ht) j').
Proof.
  induction n as [|n IH]; intros ht hk k a i j HI Hn Hi Hj Hm Hle;
    pose proof HI as [Hp Hwf Hact].
  - destruct Hm as (Hocc & _). destruct (wf_home _ _ Hwf j Hj Hocc). lia.
  - pose proof (pow2_size_bounds _ Hp) as Hb.
    cbn [remove_loop remove_loop_calls].
    assert (Hpr : probe_func hk i (size ht) = (hk + i) mod size ht)
      by (apply probe_func_mod; exact Hp).
    set (idx := probe_func hk i (size ht)) in *.
    assert (Hidx : 0 <= idx < size ht) by (apply probe_func_range; exact Hp).
    pose proof Hm as (Hocc & Hh & Hcmp).
    assert (H2 : 2 <= size ht) by lia.
    assert (Hd : 0 <= i <= psl (slot (table ht) j)) by lia.
    destruct (probe_path _ _ j H2 Hwf Hj Hocc i Hd) as [Ho Hpi].
    rewrite Hh, <- Hpr in Ho, Hpi.
    destruct (Z.eqb_spec (key (slot (table ht) idx)) NULL) as [E|_];
      [contradiction|].
    destruct ((hash_key (slot (table ht) idx) =? hk)
              && (cmp_func ht (key (slot (table ht) idx)) k =? 0)) eqn:Ht.
    + destruct (remove_at_spec ht idx hk i a
                  (with_value (with_key (free_entry ht (slot (table ht) idx)) NULL)
                              NULL) HI Hidx Ho eq_refl eq_refl)
        as (ht' & Hrun & Hrem).
      exists idx, ht'. split; [exact Hidx|].
      split; [apply matches_test; assumption|].
      split; [exact Hrun|]. split; [exact Hrem|reflexivity].
    + destruct (Z.ltb_spec (psl (slot (table ht) idx)) i) as [Hlt|_]; [lia|].
      apply (IH ht hk k a (i + 1) j); try assumption; try lia.
      destruct (Z.eq_dec i (psl (slot (table ht) j))) as [E|E]; [|lia].
      exfalso. destruct (wf_home _ _ Hwf j Hj Hocc) as [_ Hhome].
      rewrite Hh, <- E, <- Hpr in Hhome. rewrite Hhome in Ht.
      apply (matches_test ht hk k _ Hocc) in Hm. congruence.
Qed.

(** What a successful removal frees: the stored binding of a slot that
    holds the key, which the table stores no longer. *)
Lemma ht_remove_success_calls ht k len a ht' :
  Inv ht -> ht_remove ht k len a = Some (HT_SUCCESS, ht') ->
  exists j, 0 <= j < size ht /\
    matches ht (call_hash ht k len) k (slot (table ht) j) /\
    removed ht j ht' /\
    ht_remove_calls ht k len = free_entry_calls ht (slot (table ht) j).
Proof.
  intros HI Hrem. pose proof HI as [Hp Hwf _].
  pose proof (pow2_size_bounds _ Hp) as Hb.
  destruct (ht_remove_cases ht k len a HI)
    as [E|[E|(j & ht2 & Hj & Hk & Hlen & Hm & _)]];
    try (rewrite E in Hrem; discriminate).
  unfold ht_remove, remove_entry in Hrem. unfold ht_remove_calls.
  destruct (Z.eqb_spec k NULL); [contradiction|].
  destruct (Z.eqb_spec len 0); [contradiction|].
  assert (Hfuel : Z.of_nat (Z.to_nat (size ht)) = size ht - 0) by lia.
  assert (Hpsl : 0 <= psl (slot (table ht) j)).
  { destruct Hm as (Hocc & _). destruct (wf_home _ _ Hwf j Hj Hocc). lia. }
  destruct (remove_loop_found_calls _ ht _ k a 0 j HI Hfuel (Z.le_refl 0) Hj Hm Hpsl)
    as (j' & ht3 & Hj' & Hm' & Hrun & Hrm & Hcalls).
  rewrite Hrun in Hrem. injection Hrem as <-.
  exists j'. split; [exact Hj'|]. split; [exact Hm'|]. split; assumption.
Qed.

(** X13.  A successful removal calls the destructors on the key and the
    value stored in one slot that holds the key (the pointers that were
    inserted, not the pointer the removal was called with), and the table
    stores that binding no longer. *)
Theorem ht_remove_frees_stored ht k len a ht' :
  reachable ht -> ht_remove ht k len a = Some (HT_SUCCESS, ht') ->
  exists j, 0 <= j < size ht /\
    matches ht (call_hash ht k len) k (slot (table ht) j) /\
    ht_remove_calls ht k len
    = (if free_key ht then [FreeKey (key (slot (table ht) j))] else [])
      ++ (if free_val ht then [FreeVal (value (slot (table ht) j))] else []) /\
    (hash_key (slot (table ht) j), key (slot (table ht) j),
     value (slot (table ht) j)) :: contents (table ht')
    ⊆+ contents (table ht).
Proof.
  intros Hr Hrem. pose proof (reachable_Inv _ Hr) as HI.
  destruct (ht_remove_success_calls ht k len a ht' HI Hrem)
    as (j & Hj & Hm & Hrm & Hcalls).
  exists j. split; [exact Hj|]. split; [exact Hm|]. split; [exact Hcalls|].
  apply Hrm.
Qed.

Lemma ht_remove_calls_cases ht k len a :
  Inv ht ->
  (exists r, ht_remove ht k len a = Some (r, ht) /\
             ht_remove_calls ht k len = []) \/
  (exists j ht', ht_remove ht k len a = Some (HT_SUCCESS, ht') /\
     removed ht j ht' /\
     ht_remove_calls ht k len = free_entry_calls ht (slot (table ht) j)).
Proof.
  intros HI. pose proof HI as [Hp _ _].
  destruct (Z.eq_dec k NULL) as [->|Hk].
  { left. exists HT_INVALID_ARG. split; reflexivity. }
  destruct (Z.eq_dec len 0) as [->|Hlen].
  { left. exists HT_INVALID_ARG. unfold ht_remove, ht_remove_calls.
    destruct (k =? NULL); split; reflexivity. }
  destruct (present_dec ht k len) as [(j & Hj & Hm)|Hab].
  - right. destruct (ht_remove_found ht k len a j HI Hk Hlen Hj Hm)
      as (j1 & ht' & _ & _ & Hrem & _).
    destruct (ht_remove_success_calls ht k len a ht' HI Hrem)
      as (j' & _ & _ & Hrm & Hcalls).
    exists j', ht'. split; [exact Hrem|]. split; assumption.
  - left. exists HT_KEY_NOT_FOUND.
    assert (Hno : forall j, 0 <= j < size ht ->
              ~ matches ht (call_hash ht k len) k (slot (table ht) j)).
    { intros j Hj Hm. apply Hab. exists j. tauto. }
    split; [apply ht_remove_absent; assumption|].
    unfold ht_remove_calls.
    destruct (Z.eqb_spec k NULL); [contradiction|].
    destruct (Z.eqb_spec len 0); [contradiction|].
    apply remove_loop_calls_absent; assumption.
Qed.

Lemma inserted_bindings_same ht ht' ops :
  same_config ht ht' -> inserted_bindings ht' ops = inserted_bindings ht ops.
Proof.
  intros Hcfg. unfold inserted_bindings. apply list_omap_ext.
  induction ops as [|o ops IH]; constructor; [|exact IH].
  destruct o; [|reflexivity]. rewrite (call_hash_same _ _ _ _ Hcfg). reflexivity.
Qed.

(** The destructor calls of a run are those of a list of bindings that,
    with the bindings still stored, were all inserted or stored at the
    start. *)
Lemma run_calls_bindings ops : forall ht ht',
  Inv ht -> run ht ops = Some ht' ->
  exists fb : list binding,
    run_calls ht ops = concat (binding_calls (free_key ht) (free_val ht) <$> fb) /\
    fb ++ contents (table ht')
    ⊆+ inserted_bindings ht ops ++ contents (table ht).
Proof.
  induction ops as [|o ops IH]; intros ht ht' HI Hrun.
  - simpl in Hrun. injection Hrun as <-. exists []. split; reflexivity.
  - cbn [run run_calls] in *.
    destruct o as [k len v a|k len a].
    + destruct (step_spec ht (OpInsert k len v a) HI)
        as (ht1 & Hstep & HI1 & Hcfg & Hsub).
      rewrite Hstep in Hrun |- *.
      destruct (IH ht1 ht' HI1 Hrun) as (fb & Hcalls & Hfb).
      exists fb. split.
      * rewrite Hcalls. destruct Hcfg as (_ & _ & _ & _ & -> & ->). reflexivity.
      * rewrite (inserted_bindings_same _ _ _ Hcfg) in Hfb.
        etransitivity; [exact Hfb|].
        change (inserted_bindings ht (OpInsert k len v a :: ops))
          with ((call_hash ht k len, k, v) :: inserted_bindings ht ops).
        etransitivity; [apply submseteq_app; [reflexivity|exact Hsub]|].
        rewrite <- Permutation_middle. reflexivity.
    + change (inserted_bindings ht (OpRemove k len a :: ops))
        with (inserted_bindings ht ops).
      destruct (ht_remove_calls_cases ht k len a HI)
        as [(r & Hrem & Hc)|(j & ht1 & Hrem & Hrm & Hc)].
      * simpl in Hrun |- *. rewrite Hrem in Hrun |- *. simpl in Hrun |- *.
        rewrite Hc. apply (IH ht ht' HI Hrun).
      * simpl in Hrun |- *. rewrite Hrem in Hrun |- *. simpl in Hrun |- *.
        destruct Hrm as (HI1 & Hcfg & Hsub & _).
        destruct (IH ht1 ht' HI1 Hrun) as (fb & Hcalls & Hfb).
        exists ((hash_key (slot (table ht) j), key (slot (table ht) j),
                 value (slot (table ht) j)) :: fb). split.
        -- rewrite Hc, Hcalls, free_entry_calls_binding.
           destruct Hcfg as (_ & _ & _ & _ & -> & ->). reflexivity.
        -- rewrite (inserted_bindings_same _ _ _ Hcfg) in Hfb.
           simpl. etransitivity; [apply submseteq_skip; exact Hfb|].
           rewrite Permutation_middle.
           apply submseteq_app; [reflexivity|exact Hsub].
Qed.

Lemma inserted_bindings_keys ht ops :
  (fun b : binding => snd (fst b)) <$> inserted_bindings ht ops
  = inserted_keys ops.
Proof.
  induction ops as [|[k len v a|k len a] ops IH]; [reflexivity| |exact IH].
  change (inserted_bindings ht (OpInsert k len v a :: ops))
    with ((call_hash ht k len, k, v) :: inserted_bindings ht ops).
  change (inserted_keys (OpInsert k len v a :: ops))
    with (k :: inserted_keys ops).
  rewrite fmap_cons, IH. reflexivity.
Qed.

Lemma inserted_bindings_values ht ops :
  (fun b : binding => snd b) <$> inserted_bindings ht ops = inserted_values ops.
Proof.
  induction ops as [|[k len v a|k len a] ops IH]; [reflexivity| |exact IH].
  change (inserted_bindings ht (OpInsert k len v a :: ops))
    with ((call_hash ht k len, k, v) :: inserted_bindings ht ops).
  change (inserted_values (OpInsert k len v a :: ops))
    with (v :: inserted_values ops).
  rewrite fmap_cons, IH. reflexivity.
Qed.

(** X14.  Over the life of a table (creation, any operations, then
    [ht_destroy]) the destructors are handed only pointers that were
    handed to [ht_insert], each at most as many times as it was inserted:
    the keys given to [free_key] form a sub-multiset of the inserted
    keys, and the values given to [free_val] one of the inserted values.
    So a pointer inserted once is never freed twice. *)
Theorem frees_only_inserted mem config ht0 ops ht :
  ht_create mem config true true = Some ht0 -> run ht0 ops = Some ht ->
  freed_keys (run_calls ht0 ops ++ ht_destroy ht) ⊆+ inserted_keys ops /\
  freed_values (run_calls ht0 ops ++ ht_destroy ht) ⊆+ inserted_values ops.
Proof.
  intros Hc Hrun.
  apply ht_create_spec in Hc. destruct Hc as (HI0 & _ & _ & Hc0 & _).
  pose proof (run_Inv _ _ _ HI0 Hrun) as HI.
  pose proof (run_same_config _ _ _ HI0 Hrun) as Hcfg.
  destruct (run_calls_bindings ops ht0 ht HI0 Hrun) as (fb & Hcalls & Hfb).
  rewrite Hc0, app_nil_r in Hfb.
  rewrite (ht_destroy_contents ht (wf_len _ _ (inv_wf _ HI))), Hcalls.
  destruct Hcfg as (_ & _ & _ & _ & -> & ->).
  rewrite <- concat_app, <- fmap_app.
  rewrite freed_keys_calls, freed_values_calls. split.
  - destruct (free_key ht0); [|apply submseteq_nil_l].
    rewrite <- (inserted_bindings_keys ht0 ops).
    apply fmap_submseteq. exact Hfb.
  - destruct (free_val ht0); [|apply submseteq_nil_l].
    rewrite <- (inserted_bindings_values ht0 ops).
    apply fmap_submseteq. exact Hfb.
Qed.

(** ** The default strategies *)

Lemma load_int_eq_iff mem a b :
  load_int mem a = load_int mem b <->
  forall i, 0 <= i < 4 -> mem (a + i) mod 256 = mem (b + i) mod 256.
Proof.
  unfold load_int.
  pose proof (Z.mod_pos_bound (mem a) 256 ltac:(lia)) as Ha0.
  pose proof (Z.mod_pos_bound (mem (a + 1)) 256 ltac:(lia)) as Ha1.
  pose proof (Z.mod_pos_bound (mem (a + 2)) 256 ltac:(lia)) as Ha2.
  pose proof (Z.mod_pos_bound (mem (a + 3)) 256 ltac:(lia)) as Ha3.
  pose proof (Z.mod_pos_bound (mem b) 256 ltac:(lia)) as Hb0.
  pose proof (Z.mod_pos_bound (mem (b + 1)) 256 ltac:(lia)) as Hb1.
  pose proof (Z.mod_pos_bound (mem (b + 2)) 256 ltac:(lia)) as Hb2.
  pose proof (Z.mod_pos_bound (mem (b + 3)) 256 ltac:(lia)) as Hb3.
  change (2 ^ 31) with 2147483648. change (2 ^ 32) with 4294967296.
  split.
  - intros H i Hi.
    assert (Hw : mem a mod 256 + 256 * (mem (a + 1) mod 256)
                 + 65536 * (mem (a + 2) mod 256)
                 + 16777216 * (mem (a + 3) mod 256)
                 = mem b mod 256 + 256 * (mem (b + 1) mod 256)
                   + 65536 * (mem (b + 2) mod 256)
                   + 16777216 * (mem (b + 3) mod 256)).
    { destruct (Z.ltb_spec (mem a mod 256 + 256 * (mem (a + 1) mod 256)
                            + 65536 * (mem (a + 2) mod 256)
                            + 16777216 * (mem (a + 3) mod 256)) 2147483648),
        (Z.ltb_spec (mem b mod 256 + 256 * (mem (b + 1) mod 256)
                     + 65536 * (mem (b + 2) mod 256)
                     + 16777216 * (mem (b + 3) mod 256)) 2147483648); lia. }
    assert (Hc : i = 0 \/ i = 1 \/ i = 2 \/ i = 3) by lia.
    destruct Hc as [-> | [-> | [-> | ->]]]; rewrite ?Z.add_0_r; lia.
  - intros H.
    pose proof (H 0 ltac:(lia)) as E0. rewrite !Z.add_0_r in E0.
    rewrite E0, (H 1), (H 2), (H 3) by lia. reflexivity.
Qed.

(** X15.  The default comparison reads the first four bytes of each key
    as an [int]: it returns 0 exactly when those four bytes agree
    (whatever follows them), it is antisymmetric, returns -1, 0 or 1, and
    its equality is symmetric and transitive. *)
Theorem default_cmp_func_spec mem a b :
  (default_cmp_func mem a b = 0 <->
   forall i, 0 <= i < 4 -> mem (a + i) mod 256 = mem (b + i) mod 256) /\
  default_cmp_func mem b a = - default_cmp_func mem a b /\
  -1 <= default_cmp_func mem a b <= 1 /\
  consistent_cmp (default_cmp_func mem).
Proof.
  assert (Hz : forall x y, default_cmp_func mem x y = 0 <->
                           load_int mem x = load_int mem y).
  { intros x y. unfold default_cmp_func.
    destruct (Z.ltb_spec (load_int mem y) (load_int mem x)),
      (Z.ltb_spec (load_int mem x) (load_int mem y)); simpl; lia. }
  split; [rewrite Hz; apply load_int_eq_iff|]. split; [|split].
  - unfold default_cmp_func.
    destruct (Z.ltb_spec (load_int mem b) (load_int mem a)),
      (Z.ltb_spec (load_int mem a) (load_int mem b)); simpl; lia.
  - unfold default_cmp_func.
    destruct (Z.ltb_spec (load_int mem b) (load_int mem a)),
      (Z.ltb_spec (load_int mem a) (load_int mem b)); simpl; lia.
  - split.
    + intros x y H. apply Hz. apply Hz in H. congruence.
    + intros x y z H1 H2. apply Hz. apply Hz in H1. apply Hz in H2. congruence.
Qed.

Lemma fnv1a_range mem n : forall p h,
  0 <= h < 2 ^ 32 -> 0 <= fnv1a mem n p h < 2 ^ 32.
Proof.
  induction n as [|n IH]; intros p h Hh; simpl; [exact Hh|].
  apply IH. unfold u32. apply Z.mod_pos_bound. reflexivity.
Qed.

Lemma fnv1a_content mem mem' n : forall p p' h,
  (forall i, 0 <= i < Z.of_nat n -> mem (p + i) mod 256 = mem' (p' + i) mod 256) ->
  fnv1a mem n p h = fnv1a mem' n p' h.
Proof.
  induction n as [|n IH]; intros p p' h Hb; simpl; [reflexivity|].
  pose proof (Hb 0 ltac:(lia)) as E0. rewrite !Z.add_0_r in E0. rewrite E0.
  apply IH. intros i Hi. specialize (Hb (i + 1) ltac:(lia)).
  replace (p + 1 + i) with (p + (i + 1)) by lia.
  replace (p' + 1 + i) with (p' + (i + 1)) by lia. exact Hb.
Qed.

(** X16.  The default hash (FNV-1a) is a 32-bit value that depends on
    the [len] bytes of the key only: two keys of the same length with the
    same bytes have the same hash, wherever they are stored. *)
Theorem default_hash_func_content mem mem' k k' len :
  (forall i, 0 <= i < len -> mem (k + i) mod 256 = mem' (k' + i) mod 256) ->
  default_hash_func mem k len = default_hash_func mem' k' len /\
  0 <= default_hash_func mem k len < 2 ^ 32.
Proof.
  intros Hb. unfold default_hash_func. split.
  - apply fnv1a_content. intros i Hi. apply Hb. lia.
  - apply fnv1a_range. split; [lia|reflexivity].
Qed.

(** X17.  The default strategies agree on [int] keys: two keys that the
    default comparison finds equal have the same default hash of length
    4, so a table created without callbacks and used with keys of
    [sizeof(int)] bytes looks for a key where an equal key is stored. *)
Theorem default_strategies_agree mem a b :
  default_cmp_func mem a b = 0 ->
  default_hash_func mem a 4 = default_hash_func mem b 4.
Proof.
  intros H. unfold default_hash_func. apply fnv1a_content.
  assert (Hl : load_int mem a = load_int mem b).
  { unfold default_cmp_func in H.
    destruct (Z.ltb_spec (load_int mem b) (load_int mem a)),
      (Z.ltb_spec (load_int mem a) (load_int mem b)); simpl in H; lia. }
  intros i Hi. apply (proj1 (load_int_eq_iff mem a b) Hl). simpl in Hi. lia.
Qed.

(** ** Printing *)

Lemma print_loop_contents {T : Type} ht (fk fv : ptr -> T) (l : list HTentry) :
  forall n i,
  0 <= i -> drop (Z.to_nat i) (table ht) = l -> n = length l ->
  (fun line : Z * Z * Z * T * T =>
     (snd (fst (fst (fst line))), snd (fst line), snd line))
  <$> print_loop ht fk fv n i
  = (fun b : binding => (fst (fst b), fk (snd (fst b)), fv (snd b)))
    <$> contents l.
Proof.
  induction l as [|e l IH]; intros n i Hi Hdrop ->; [reflexivity|].
  assert (Hlook : table ht !! Z.to_nat i = Some e).
  { pose proof (lookup_drop (table ht) (Z.to_nat i) 0) as H.
    rewrite Hdrop, Nat.add_0_r in H. symmetry. exact H. }
  assert (Hslot : slot (table ht) i = e)
    by (unfold slot; apply list_lookup_total_correct; exact Hlook).
  rewrite (drop_S _ _ _ Hlook) in Hdrop. injection Hdrop as Hdrop.
  cbn [length print_loop]. rewrite Hslot, contents_cons, !fmap_app.
  rewrite (IH (length l) (i + 1)); [|lia| |reflexivity].
  - unfold binding_of. destruct (key e =? NULL); reflexivity.
  - replace (Z.to_nat (i + 1)) with (S (Z.to_nat i)) by lia. exact Hdrop.
Qed.

(** X18.  [ht_print] prints nothing when a formatter is missing; given
    both, on a reachable table it prints the capacity and the count and
    then one line per stored binding, in slot order, with the cached hash
    and the formatted key and value of the binding: as many lines as the
    count it prints. *)
Theorem ht_print_lists_bindings {T : Type} ht (fk fv : ptr -> T) :
  reachable ht ->
  ht_print ht None (Some fv) = None /\
  ht_print ht (Some fk) None = None /\
  exists lines,
    ht_print ht (Some fk) (Some fv)
    = Some (size ht, active ht, load_factor ht, lines) /\
    Z.of_nat (length lines) = active ht /\
    (fun line : Z * Z * Z * T * T =>
       (snd (fst (fst (fst line))), snd (fst line), snd line)) <$> lines
    = (fun b : binding => (fst (fst b), fk (snd (fst b)), fv (snd b)))
      <$> contents (table ht).
Proof.
  intros Hr. destruct (reachable_Inv _ Hr) as [_ Hwf Hact].
  pose proof (wf_len _ _ Hwf) as Hlen.
  split; [reflexivity|]. split; [reflexivity|].
  eexists. split; [reflexivity|].
  assert (Hl : (fun line : Z * Z * Z * T * T =>
                  (snd (fst (fst (fst line))), snd (fst line), snd line))
               <$> print_loop ht fk fv (Z.to_nat (size ht)) 0
               = (fun b : binding => (fst (fst b), fk (snd (fst b)), fv (snd b)))
                 <$> contents (table ht)).
  { apply print_loop_contents; [lia|reflexivity|lia]. }
  split; [|exact Hl].
  apply (f_equal length) in Hl. rewrite !length_fmap in Hl. rewrite Hl, Hact.
  reflexivity.
Qed.

(** ** Removal when the shrink cannot allocate *)

Lemma remove_loop_alloc_failure_size n : forall ht hk k i ht',
  remove_loop ht hk k false n i = Some (HT_SUCCESS, ht') -> size ht' = size ht.
Proof.
  induction n as [|n IH]; intros ht hk k i ht' H; simpl in H; [discriminate|].
  destruct (key _ =? NULL); [discriminate|].
  destruct (_ && _).
  - unfold shift_entries_backward in H.
    destruct (shift_loop _ _ _ _ _ _ _) as [tb|]; [|discriminate].
    simpl in H. injection H as <-.
    rewrite remove_table_update_alloc_failure. reflexivity.
  - destruct (_ <? _); [discriminate|]. exact (IH _ _ _ _ _ H).
Qed.

(** X19.  A removal does not report the allocation failure of its shrink
    step: on every reachable table, removing a stored key when the
    allocation fails returns [HT_SUCCESS] all the same, with the capacity
    kept, the count lowered by one and exactly one binding of the key
    taken out of the stored bindings. *)
Theorem ht_remove_alloc_failure ht k len :
  reachable ht -> k <> NULL -> len <> 0 -> present ht k len ->
  exists j ht',
    ht_remove ht k len false = Some (HT_SUCCESS, ht') /\
    0 <= j < size ht /\
    matches ht (call_hash ht k len) k (slot (table ht) j) /\
    size ht' = size ht /\ active ht' = active ht - 1 /\
    (hash_key (slot (table ht) j), key (slot (table ht) j),
     value (slot (table ht) j)) :: contents (table ht')
    ≡ₚ contents (table ht).
Proof.
  intros Hr Hk Hlen (j0 & Hj0 & Hm0). pose proof (reachable_Inv _ Hr) as HI.
  destruct (ht_remove_found ht k len false j0 HI Hk Hlen Hj0 Hm0)
    as (j & ht' & Hj & Hm & Hrun & HI' & _ & _ & _ & Hperm).
  assert (Hsz : size ht' = size ht).
  { unfold ht_remove, remove_entry in Hrun.
    destruct (k =? NULL); [discriminate|]. destruct (len =? 0); [discriminate|].
    exact (remove_loop_alloc_failure_size _ _ _ _ _ _ Hrun). }
  specialize (Hperm (or_introl Hsz)).
  exists j, ht'. split; [exact Hrun|]. split; [exact Hj|]. split; [exact Hm|].
  split; [exact Hsz|]. split; [|exact Hperm].
  rewrite (inv_active _ HI'), (inv_active _ HI), <- Hperm. unfold binding in *.
  simpl. lia.
Qed.

(** ** Creation *)

(** X20.  [ht_create] away from NaN: it returns a table exactly when both
    allocations succeed and the load factors satisfy
    [0 < load_factor <= 1] and [0 <= min_load_factor < load_factor]; the
    table it returns has capacity 2, no entry, the load factors of the
    configuration, the callbacks of the configuration (the defaults in
    place of missing ones), and every search in it returns [NULL]. *)
Theorem ht_create_contract mem config malloc_ok calloc_ok :
  cfg_load_factor config <> S754_nan ->
  cfg_min_load_factor config <> S754_nan ->
  (ht_create mem config malloc_ok calloc_ok <> None <->
   malloc_ok = true /\ calloc_ok = true /\
   f32_lt (f32_of_Z 0) (cfg_load_factor config) = true /\
   f32_le (cfg_load_factor config) (f32_of_Z 1) = true /\
   f32_le (f32_of_Z 0) (cfg_min_load_factor config) = true /\
   f32_lt (cfg_min_load_factor config) (cfg_load_factor config) = true) /\
  (forall ht, ht_create mem config malloc_ok calloc_ok = Some ht ->
     size ht = 2 /\ active ht = 0 /\ length (table ht) = 2%nat /\
     contents (table ht) = [] /\
     load_factor ht = cfg_load_factor config /\
     min_load_factor ht = cfg_min_load_factor config /\
     hash_func ht = default (default_hash_func mem) (cfg_hash_func config) /\
     cmp_func ht = default (default_cmp_func mem) (cfg_cmp_func config) /\
     free_key ht = cfg_free_key config /\ free_val ht = cfg_free_val config /\
     forall k len, ht_search ht k len = NULL).
Proof.
  intros Hlf Hmin.
  pose proof (validate_load_factors_spec _ _ Hlf Hmin) as Hv.
  split.
  - unfold ht_create.
    destruct (validate_load_factors _ _) eqn:E; simpl;
      try (split; [intros H; contradiction
                  |intros (_ & _ & H); apply Hv in H; discriminate H]).
    destruct malloc_ok, calloc_ok; simpl;
      try (split; [intros H; contradiction
                  |intros (H1 & H2 & _); discriminate]).
    split; [intros _|intros _; discriminate].
    split; [reflexivity|]. split; [reflexivity|]. apply Hv. reflexivity.
  - intros ht H.
    assert (Hc : ht_create mem config true true = Some ht).
    { unfold ht_create in *. destruct (negb _); [discriminate|].
      destruct malloc_ok; [|discriminate]. destruct calloc_ok; [|discriminate].
      exact H. }
    destruct (ht_create_spec _ _ _ Hc) as (HI & Hsz & Ha & Hcont & _).
    split; [exact Hsz|]. split; [exact Ha|].
    split; [pose proof (wf_len _ _ (inv_wf _ HI)); lia|].
    split; [exact Hcont|].
    unfold ht_create in Hc. destruct (negb _); [discriminate|].
    injection Hc as <-. simpl. repeat (split; [reflexivity|]).
    intros k len. apply absent_search_null; [exact (inv_pow2 _ HI)|].
    intros Hp. apply (present_iff_binding _ _ _ HI) in Hp.
    destruct Hp as (k0 & v & Hin & _). rewrite Hcont in Hin.
    apply elem_of_nil in Hin. exact Hin.
Qed.

(** ** Concrete runs of the further properties *)

Ltac by_eval :=
  vm_compute;
  first [ reflexivity
        | discriminate
        | split; [discriminate | reflexivity] ].

Lemma eq_cmp_consistent : consistent_cmp eq_cmp.
Proof. split; [exact eq_cmp_sym | exact eq_cmp_trans]. Qed.

Lemma table_after_reachable_nonnull lf min_lf ops :
  Forall op_value_nonnull ops -> run_from lf min_lf ops <> None ->
  reachable_nonnull (table_after lf min_lf ops).
Proof.
  unfold table_after, run_from, create. intros Hops H.
  destruct (ht_create no_mem (config lf min_lf) true true) as [ht0|] eqn:Hc;
    [|contradiction].
  destruct (run ht0 ops) as [ht|] eqn:Hrun; [|contradiction].
  exists no_mem, (config lf min_lf), ht0, ops. split; [|split]; assumption.
Qed.

Lemma table_free_reachable ops :
  match ht_create no_mem config_free true true with
  | Some ht => run ht ops
  | None => None
  end <> None ->
  reachable (table_free ops).
Proof.
  unfold table_free. intros H.
  destruct (ht_create no_mem config_free true true) as [ht0|] eqn:Hc;
    [|contradiction].
  destruct (run ht0 ops) as [ht|] eqn:Hrun; [|contradiction].
  exists no_mem, config_free, ht0, ops. split; assumption.
Qed.

Lemma ops_b_nonnull : reachable_nonnull (table_after f_075 f_025 ops_b).
Proof.
  apply table_after_reachable_nonnull.
  - repeat constructor; discriminate.
  - vm_compute. discriminate.
Qed.

(** Capacity 4, hash 5: the probe sequence 1, 2, 3, 0. *)
Lemma probe_func_covers_witness :
  (forall i, 0 <= probe_func 5 i 4 < 4) /\
  (forall j, 0 <= j < 4 ->
     exists i, 0 <= i < 4 /\ probe_func 5 i 4 = j /\
               forall i', 0 <= i' < 4 -> probe_func 5 i' 4 = j -> i' = i).
Proof. apply (probe_func_covers 5 2 4); [lia | reflexivity]. Defined.

Lemma active_counts_occupied_witness :
  Z.of_nat (length (table (table_after f_075 f_025 ops_b)))
  = size (table_after f_075 f_025 ops_b) /\
  active (table_after f_075 f_025 ops_b)
  = Z.of_nat (length (contents (table (table_after f_075 f_025 ops_b)))) /\
  0 <= active (table_after f_075 f_025 ops_b)
    <= size (table_after f_075 f_025 ops_b).
Proof.
  apply (active_counts_occupied (table_after f_075 f_025 ops_b)).
  apply table_after_reachable. vm_compute. discriminate.
Defined.

(** Key 2 of [ops_b] sits in slot 2, its home. *)
Lemma stored_psl_is_distance_witness :
  0 <= psl (slot (table (table_after f_075 f_025 ops_b)) 2)
    < size (table_after f_075 f_025 ops_b) /\
  probe_func (hash_key (slot (table (table_after f_075 f_025 ops_b)) 2))
             (psl (slot (table (table_after f_075 f_025 ops_b)) 2))
             (size (table_after f_075 f_025 ops_b)) = 2.
Proof.
  apply (stored_psl_is_distance (table_after f_075 f_025 ops_b) 2).
  - apply table_after_reachable. vm_compute. discriminate.
  - by_eval.
  - by_eval.
Defined.

Lemma ht_search_hit_iff_present_witness :
  (ht_search (table_after f_075 f_025 ops_b) 1 4 <> NULL <->
   present (table_after f_075 f_025 ops_b) 1 4) /\
  (ht_search (table_after f_075 f_025 ops_b) 1 4 <> NULL ->
   exists j, 0 <= j < size (table_after f_075 f_025 ops_b) /\
     matches (table_after f_075 f_025 ops_b)
             (call_hash (table_after f_075 f_025 ops_b) 1 4) 1
             (slot (table (table_after f_075 f_025 ops_b)) j) /\
     ht_search (table_after f_075 f_025 ops_b) 1 4
     = value (slot (table (table_after f_075 f_025 ops_b)) j)).
Proof.
  apply (ht_search_hit_iff_present (table_after f_075 f_025 ops_b) 1 4).
  - exact ops_b_nonnull.
  - discriminate.
  - discriminate.
Defined.

(** Key 7 was never inserted. *)
Lemma missing_key_behaviour_witness :
  ht_search (table_after f_075 f_025 ops_b) 7 4 = NULL /\
  ht_remove (table_after f_075 f_025 ops_b) 7 4 true
  = Some (HT_KEY_NOT_FOUND, table_after f_075 f_025 ops_b) /\
  ht_remove_calls (table_after f_075 f_025 ops_b) 7 4 = [].
Proof.
  apply (missing_key_behaviour (table_after f_075 f_025 ops_b) 7 4 true).
  - apply table_after_reachable. vm_compute. discriminate.
  - discriminate.
  - discriminate.
  - intros (j & Hj & Hm). revert Hm.
    destruct (reachable_nonnull_facts _ ops_b_nonnull eq_cmp_consistent)
      as (_ & HI & Hnn & _).
    apply (ht_search_null_absent _ 7 4 HI Hnn); [discriminate|discriminate| |exact Hj].
    vm_compute. reflexivity.
Defined.





Lemma active_follows_operations_witness :
  (forall k len v a ht',
     ht_insert (table_after f_075 f_025 ops_b) k len v a = (HT_SUCCESS, ht') ->
     active ht' = active (table_after f_075 f_025 ops_b) + 1) /\
  (forall k len a ht',
     ht_remove (table_after f_075 f_025 ops_b) k len a = Some (HT_SUCCESS, ht') ->
     active ht' <= active (table_after f_075 f_025 ops_b) - 1 /\
     (size ht' = size (table_after f_075 f_025 ops_b) \/
      active (table_after f_075 f_025 ops_b) - 1
      <= size (table_after f_075 f_025 ops_b) / 2 ->
      active ht' = active (table_after f_075 f_025 ops_b) - 1)).
Proof.
  apply (active_follows_operations (table_after f_075 f_025 ops_b)).
  apply table_after_reachable. vm_compute. discriminate.
Defined.

(** Keys 1 and 2 stored with both destructors configured: the
    destruction frees keys 1 and 2 and values 100 and 200. *)
Lemma ht_destroy_frees_stored_witness :
  freed_keys (ht_destroy (table_free ops_b))
  = (if free_key (table_free ops_b)
     then (fun b : binding => snd (fst b)) <$> contents (table (table_free ops_b))
     else []) /\
  freed_values (ht_destroy (table_free ops_b))
  = (if free_val (table_free ops_b)
     then (fun b : binding => snd b) <$> contents (table (table_free ops_b))
     else []).
Proof.
  apply (ht_destroy_frees_stored (table_free ops_b)).
  apply table_free_reachable. vm_compute. discriminate.
Defined.

Lemma ht_remove_frees_stored_witness :
  exists j, 0 <= j < size (table_free ops_b) /\
    matches (table_free ops_b) (call_hash (table_free ops_b) 1 4) 1
            (slot (table (table_free ops_b)) j) /\
    ht_remove_calls (table_free ops_b) 1 4
    = (if free_key (table_free ops_b)
       then [FreeKey (key (slot (table (table_free ops_b)) j))] else [])
      ++ (if free_val (table_free ops_b)
          then [FreeVal (value (slot (table (table_free ops_b)) j))] else []) /\
    (hash_key (slot (table (table_free ops_b)) j),
     key (slot (table (table_free ops_b)) j),
     value (slot (table (table_free ops_b)) j))
    :: contents (table (after_remove (ht_remove (table_free ops_b) 1 4 true)))
    ⊆+ contents (table (table_free ops_b)).
Proof.
  apply (ht_remove_frees_stored (table_free ops_b) 1 4 true).
  - apply table_free_reachable. vm_compute. discriminate.
  - vm_compute. reflexivity.
Defined.

(** Keys 1 and 2 inserted, key 1 removed, the table destroyed. *)
Lemma frees_only_inserted_witness :
  freed_keys (run_calls (get (ht_create no_mem config_free true true)) ops_a
              ++ ht_destroy (table_free ops_a))
  ⊆+ inserted_keys ops_a /\
  freed_values (run_calls (get (ht_create no_mem config_free true true)) ops_a
                ++ ht_destroy (table_free ops_a))
  ⊆+ inserted_values ops_a.
Proof.
  apply (frees_only_inserted no_mem config_free
           (get (ht_create no_mem config_free true true)) ops_a
           (table_free ops_a)).
  - vm_compute. reflexivity.
  - vm_compute. reflexivity.
Defined.

(** The keys at addresses 0 and 8 of [mem8] hold the same four bytes. *)
Lemma default_hash_func_content_witness :
  default_hash_func mem8 0 4 = default_hash_func mem8 8 4 /\
  0 <= default_hash_func mem8 0 4 < 2 ^ 32.
Proof.
  apply (default_hash_func_content mem8 mem8 0 8 4).
  intros i Hi.
  assert (Hc : i = 0 \/ i = 1 \/ i = 2 \/ i = 3) by lia.
  destruct Hc as [-> | [-> | [-> | ->]]]; reflexivity.
Defined.

Lemma default_strategies_agree_witness :
  default_hash_func mem8 0 4 = default_hash_func mem8 8 4.
Proof. apply (default_strategies_agree mem8 0 8). vm_compute. reflexivity. Defined.

(** The table of [ops_b] printed with the pointers themselves as text. *)
Lemma ht_print_lists_bindings_witness :
  ht_print (table_after f_075 f_025 ops_b) None (Some (fun p : ptr => p)) = None /\
  ht_print (table_after f_075 f_025 ops_b) (Some (fun p : ptr => p)) None = None /\
  exists lines,
    ht_print (table_after f_075 f_025 ops_b)
             (Some (fun p : ptr => p)) (Some (fun p : ptr => p))
    = Some (size (table_after f_075 f_025 ops_b),
            active (table_after f_075 f_025 ops_b),
            load_factor (table_after f_075 f_025 ops_b), lines) /\
    Z.of_nat (length lines) = active (table_after f_075 f_025 ops_b) /\
    (fun line : Z * Z * Z * Z * Z =>
       (snd (fst (fst (fst line))), snd (fst line), snd line)) <$> lines
    = (fun b : binding => (fst (fst b), snd (fst b), snd b))
      <$> contents (table (table_after f_075 f_025 ops_b)).
Proof.
  apply (ht_print_lists_bindings (table_after f_075 f_025 ops_b)
           (fun p : ptr => p) (fun p : ptr => p)).
  apply table_after_reachable. vm_compute. discriminate.
Defined.

(** The full table of [ops_c] with load factors 1.0 and 0.875, where the
    removal of key 1 asks for a shrink. *)
Lemma ht_remove_alloc_failure_witness :
  exists j ht',
    ht_remove (table_after f_1 f_0875 ops_c) 1 4 false = Some (HT_SUCCESS, ht') /\
    0 <= j < size (table_after f_1 f_0875 ops_c) /\
    matches (table_after f_1 f_0875 ops_c)
            (call_hash (table_after f_1 f_0875 ops_c) 1 4) 1
            (slot (table (table_after f_1 f_0875 ops_c)) j) /\
    size ht' = size (table_after f_1 f_0875 ops_c) /\
    active ht' = active (table_after f_1 f_0875 ops_c) - 1 /\
    (hash_key (slot (table (table_after f_1 f_0875 ops_c)) j),
     key (slot (table (table_after f_1 f_0875 ops_c)) j),
     value (slot (table (table_after f_1 f_0875 ops_c)) j))
    :: contents (table ht')
    ≡ₚ contents (table (table_after f_1 f_0875 ops_c)).
Proof.
  apply (ht_remove_alloc_failure (table_after f_1 f_0875 ops_c) 1 4).
  - apply table_after_reachable. vm_compute. discriminate.
  - discriminate.
  - discriminate.
  - exists 1. split; [by_eval|].
    split; [intros H; vm_compute in H; discriminate H|].
    split; vm_compute; reflexivity.
Defined.

Lemma ht_create_contract_witness :
  (ht_create no_mem (config f_075 f_025) true true <> None <->
   true = true /\ true = true /\
   f32_lt (f32_of_Z 0) (cfg_load_factor (config f_075 f_025)) = true /\
   f32_le (cfg_load_factor (config f_075 f_025)) (f32_of_Z 1) = true /\
   f32_le (f32_of_Z 0) (cfg_min_load_factor (config f_075 f_025)) = true /\
   f32_lt (cfg_min_load_factor (config f_075 f_025))
          (cfg_load_factor (config f_075 f_025)) = true) /\
  (forall ht, ht_create no_mem (config f_075 f_025) true true = Some ht ->
     size ht = 2 /\ active ht = 0 /\ length (table ht) = 2%nat /\
     contents (table ht) = [] /\
     load_factor ht = cfg_load_factor (config f_075 f_025) /\
     min_load_factor ht = cfg_min_load_factor (config f_075 f_025) /\
     hash_func ht
     = default (default_hash_func no_mem) (cfg_hash_func (config f_075 f_025)) /\
     cmp_func ht
     = default (default_cmp_func no_mem) (cfg_cmp_func (config f_075 f_025)) /\
     free_key ht = cfg_free_key (config f_075 f_025) /\
     free_val ht = cfg_free_val (config f_075 f_025) /\
     forall k len, ht_search ht k len = NULL).
Proof.
  apply (ht_create_contract no_mem (config f_075 f_025) true true);
    discriminate.
Defined.
